(** * Mask-based region editor: a shallow embedding of [ImageEditor.tsx]

    The development follows the component file top-down: JavaScript strings
    and numbers, the data-URL parser, the raster model behind the two canvases,
    the [ImageEditor] component state with its event handlers, and the
    application-level edit history of [App.tsx]. *)

From Stdlib Require Import PrimFloat.
From Stdlib Require Uint63.
From Stdlib Require Import String Ascii ZArith NArith QArith Qminmax Bool Lia.
From Stdlib Require Import Sorted List.
Import ListNotations.

Set Implicit Arguments.

(* ================================================================== *)
(** ** JavaScript strings *)

(** A JavaScript string is a sequence of UTF-16 code units.  Regular
    expressions without the [u] flag work on code units, so this is the
    granularity at which [String.prototype.match] sees its input. *)
Definition char16 := N.
Definition JsString := list char16.

(** ASCII literals of the source, as code-unit sequences. *)
Definition js (s : string) : JsString :=
  map N_of_ascii (list_ascii_of_string s).

(** [!s] for a string: only the empty string is falsy. *)
Definition falsy (s : JsString) : bool :=
  match s with [] => true | _ :: _ => false end.

(** The character class [[a-z]]. *)
Definition is_lower (c : char16) : bool :=
  ((97 <=? c) && (c <=? 122))%N.

(** ECMAScript LineTerminator: LF, CR, U+2028, U+2029.  Without the [s]
    flag the atom [.] matches every code unit but these. *)
Definition is_line_terminator (c : char16) : bool :=
  ((c =? 10) || (c =? 13) || (c =? 8232) || (c =? 8233))%N.

Definition dot (c : char16) : bool := negb (is_line_terminator c).

(** Consume a literal at the head of the input. *)
Fixpoint strip_prefix (lit s : JsString) : option JsString :=
  match lit, s with
  | [], _ => Some s
  | _ :: _, [] => None
  | a :: lit', b :: s' => if (a =? b)%N then strip_prefix lit' s' else None
  end.

(** Greedy run of a character class: the longest prefix whose code units
    all satisfy [p], and the rest. *)
Fixpoint span (p : char16 -> bool) (s : JsString) : JsString * JsString :=
  match s with
  | [] => ([], [])
  | c :: s' =>
      if p c then let (run, rest) := span p s' in (c :: run, rest)
      else ([], s)
  end.

(** [s.split(sep)] for a one-code-unit separator. *)
Fixpoint split (sep : char16) (s : JsString) : list JsString :=
  match s with
  | [] => [[]]
  | c :: s' =>
      if (c =? sep)%N then [] :: split sep s'
      else match split sep s' with
           | [] => [[c]]
           | seg :: segs => (c :: seg) :: segs
           end
  end.

(* ================================================================== *)
(** ** JavaScript numbers *)

(** A JavaScript number is an IEEE 754 binary64 value, and [+], [-],
    [*] and [/] round to nearest, ties to even: these are the kernel's
    primitive floats and their operations, infinities and NaN
    included. *)
Definition number := float.
Bind Scope float_scope with number.

(** An integer-valued property ([canvas.width], [imageEl.height]) read
    as a number.  The conversion is exact below 2^53, far above any
    canvas size. *)
Definition of_nat (n : nat) : number := of_uint63 (Uint63.of_Z (Z.of_nat n)).

(** [Math.min(x, y)]: NaN if either argument is, and -0 counts as
    smaller than +0. *)
Definition Math_min (x y : number) : number :=
  if is_nan x || is_nan y then nan
  else if (x <? y)%float then x
  else if (y <? x)%float then y
  else if get_sign x then x else y.

(* ================================================================== *)
(** ** [types.ts] *)

Record SourceImage := {
  base64 : JsString;
  mimeType : JsString
}.

Module Item.
(** [EditHistoryItem] *)
Record t := {
  id : Z;
  timestamp : JsString;
  sourceImage : SourceImage;
  maskImage : SourceImage;
  referenceImage : option SourceImage;
  prompt : JsString;
  resultImage : JsString
}.
End Item.

(* ================================================================== *)
(** ** [dataUrlToSourceImage] *)

(** [dataUrl.match(/^data:(image\/[a-z]+);base64,(.+)$/)], returning the
    two capture groups.  The pattern is anchored at both ends and has no
    flags.  After the greedy run [[a-z]+] the next atom is the literal
    [;], which is not a letter, so no shorter run can succeed and the
    match is deterministic; [(.+)$] must take the whole remainder, which
    therefore has to be non-empty and free of line terminators. *)
Definition match_data_url (dataUrl : JsString) : option (JsString * JsString) :=
  match strip_prefix (js "data:") dataUrl with
  | None => None
  | Some r1 =>
      match strip_prefix (js "image/") r1 with
      | None => None
      | Some r2 =>
          let (letters, r3) := span is_lower r2 in
          if falsy letters then None
          else
            match strip_prefix (js ";base64,") r3 with
            | None => None
            | Some r4 =>
                if negb (falsy r4) && forallb dot r4
                then Some (js "image/" ++ letters, r4)
                else None
            end
      end
  end.

Definition dataUrlToSourceImage (dataUrl : JsString) : option SourceImage :=
  match match_data_url dataUrl with
  | Some (m1, m2) =>
      if negb (falsy m1) && negb (falsy m2)
      then Some {| mimeType := m1; base64 := m2 |}
      else None
  | None => None
  end.

(** The template literal [`data:${mimeType};base64,${base64}`] used all
    over the component to turn a [SourceImage] back into a URL. *)
Definition toDataUrl (img : SourceImage) : JsString :=
  js "data:" ++ mimeType img ++ js ";base64," ++ base64 img.

(* ================================================================== *)
(** ** Rasters: [ImageData] and the 2D canvas *)

Local Open Scope Z_scope.

(** One RGBA sample, 8 bits per channel, not premultiplied: what
    [getImageData] exposes. *)
Record Pixel := { red : Z; green : Z; blue : Z; alpha : Z }.

Definition transparent : Pixel := {| red := 0; green := 0; blue := 0; alpha := 0 |}.
Definition black : Pixel := {| red := 0; green := 0; blue := 0; alpha := 255 |}.
Definition white : Pixel := {| red := 255; green := 255; blue := 255; alpha := 255 |}.

(** [rgba(236, 72, 153, 0.7)], the highlight tone of the brush. *)
Definition highlight : Pixel := {| red := 236; green := 72; blue := 153; alpha := 179 |}.

(** A raster of [height] rows of [width] samples each. *)
Record ImageData := {
  width : nat;
  height : nat;
  rows : list (list Pixel)
}.

Definition well_formed (img : ImageData) : Prop :=
  length (rows img) = height img /\
  Forall (fun r => length r = width img) (rows img).

(** Transparent black everywhere: a freshly sized or cleared surface. *)
Definition blank (w h : nat) : ImageData :=
  {| width := w; height := h; rows := repeat (repeat transparent w) h |}.

Definition getPixel (img : ImageData) (x y : nat) : Pixel :=
  nth x (nth y (rows img) []) transparent.

(** Division by 255 rounded to nearest, the fixed-point step of 8-bit
    blending.  Only its exactness on multiples of 255 matters below. *)
Definition div255 (x : Z) : Z := (x + 127) / 255.

(** The two [globalCompositeOperation] values the component sets. *)
Inductive CompositeOp := SourceOver | SourceIn.

(** Porter-Duff source-over: [ao = as + ab (1 - as)] and
    [co = (as cs + (1 - as) ab cb) / ao]. *)
Definition source_over (s b : Pixel) : Pixel :=
  let ao := alpha s + div255 (alpha b * (255 - alpha s)) in
  let ch (cs cb : Z) :=
    if ao =? 0 then 0
    else (cs * alpha s * 255 + cb * alpha b * (255 - alpha s) + (255 * ao) / 2)
         / (255 * ao) in
  {| red := ch (red s) (red b); green := ch (green s) (green b);
     blue := ch (blue s) (blue b); alpha := ao |}.

(** Porter-Duff source-in: [ao = as ab] and [co = cs]; the source is
    kept only where the backdrop has coverage. *)
Definition source_in (s b : Pixel) : Pixel :=
  let ao := div255 (alpha s * alpha b) in
  if ao =? 0 then transparent
  else {| red := red s; green := green s; blue := blue s; alpha := ao |}.

Definition composite (op : CompositeOp) : Pixel -> Pixel -> Pixel :=
  match op with SourceOver => source_over | SourceIn => source_in end.

(** Apply [f] to the first [n] elements only: a rectangle anchored at
    the origin touches a prefix of the rows and a prefix of each row. *)
Fixpoint map_prefix {A} (n : nat) (f : A -> A) (l : list A) : list A :=
  match n, l with
  | S n', a :: l' => f a :: map_prefix n' f l'
  | _, _ => l
  end.

(** Combine a source laid over a destination at the origin: where the
    source has no sample the destination is left alone. *)
Fixpoint overlay {A B} (f : A -> B -> B) (src : list A) (dst : list B) : list B :=
  match src, dst with
  | s :: src', d :: dst' => f s d :: overlay f src' dst'
  | _, _ => dst
  end.

(** An [HTMLCanvasElement] with the state of its 2D context. *)
Record Canvas := {
  bitmap : ImageData;
  fillStyle : Pixel;
  strokeStyle : Pixel;
  globalCompositeOperation : CompositeOp;
  lineWidth : number;
  path : list (number * number)
}.

(** Assigning [canvas.width] / [canvas.height] resizes the bitmap,
    clears it to transparent black and resets the context. *)
Definition fresh (w h : nat) : Canvas :=
  {| bitmap := blank w h; fillStyle := black; strokeStyle := black;
     globalCompositeOperation := SourceOver; lineWidth := 1%float; path := [] |}.

(** [document.createElement('canvas')]: 300 by 150 by default. *)
Definition createCanvas : Canvas := fresh 300%nat 150%nat.

Definition set_width (w : nat) (c : Canvas) : Canvas := fresh w (height (bitmap c)).
Definition set_height (h : nat) (c : Canvas) : Canvas := fresh (width (bitmap c)) h.

Definition with_bitmap (c : Canvas) (rs : list (list Pixel)) : Canvas :=
  {| bitmap := {| width := width (bitmap c); height := height (bitmap c); rows := rs |};
     fillStyle := fillStyle c; strokeStyle := strokeStyle c;
     globalCompositeOperation := globalCompositeOperation c;
     lineWidth := lineWidth c; path := path c |}.

Definition set_fillStyle (p : Pixel) (c : Canvas) : Canvas :=
  {| bitmap := bitmap c; fillStyle := p; strokeStyle := strokeStyle c;
     globalCompositeOperation := globalCompositeOperation c;
     lineWidth := lineWidth c; path := path c |}.

Definition set_strokeStyle (p : Pixel) (c : Canvas) : Canvas :=
  {| bitmap := bitmap c; fillStyle := fillStyle c; strokeStyle := p;
     globalCompositeOperation := globalCompositeOperation c;
     lineWidth := lineWidth c; path := path c |}.

Definition set_globalCompositeOperation (op : CompositeOp) (c : Canvas) : Canvas :=
  {| bitmap := bitmap c; fillStyle := fillStyle c; strokeStyle := strokeStyle c;
     globalCompositeOperation := op;
     lineWidth := lineWidth c; path := path c |}.

Definition set_lineWidth (lw : number) (c : Canvas) : Canvas :=
  {| bitmap := bitmap c; fillStyle := fillStyle c; strokeStyle := strokeStyle c;
     globalCompositeOperation := globalCompositeOperation c;
     lineWidth := lw; path := path c |}.

Definition set_path (p : list (number * number)) (c : Canvas) : Canvas :=
  {| bitmap := bitmap c; fillStyle := fillStyle c; strokeStyle := strokeStyle c;
     globalCompositeOperation := globalCompositeOperation c;
     lineWidth := lineWidth c; path := p |}.

(** [ctx.fillRect(0, 0, w, h)] *)
Definition fillRect (w h : nat) (c : Canvas) : Canvas :=
  with_bitmap c
    (map_prefix h
       (map_prefix w (composite (globalCompositeOperation c) (fillStyle c)))
       (rows (bitmap c))).

(** [ctx.clearRect(0, 0, w, h)]: transparent black, whatever the
    compositing mode. *)
Definition clearRect (w h : nat) (c : Canvas) : Canvas :=
  with_bitmap c
    (map_prefix h (map_prefix w (fun _ => transparent)) (rows (bitmap c))).

(** [ctx.drawImage(src, 0, 0)] with a canvas as the source. *)
Definition drawImage (src : ImageData) (c : Canvas) : Canvas :=
  with_bitmap c
    (overlay (overlay (composite (globalCompositeOperation c)))
       (rows src) (rows (bitmap c))).

(** [ctx.putImageData(img, 0, 0)]: samples are copied, not blended. *)
Definition putImageData (img : ImageData) (c : Canvas) : Canvas :=
  with_bitmap c
    (overlay (overlay (fun s _ => s)) (rows img) (rows (bitmap c))).

(** [ctx.getImageData(0, 0, canvas.width, canvas.height)] *)
Definition getImageData (c : Canvas) : ImageData := bitmap c.

(** [ctx.beginPath(); ctx.moveTo(x, y)] *)
Definition beginPath_moveTo (p : number * number) (c : Canvas) : Canvas := set_path [p] c.

(** [ctx.lineTo(x, y)] *)
Definition lineTo (p : number * number) (c : Canvas) : Canvas := set_path (path c ++ [p]) c.

(** What lies outside the component: the browser's stroke rasteriser,
    its image decoder, its PNG encoder and its allocation of contexts.
    [coverage pts lw w h] is the per-sample coverage (0 to 255) of the
    round-capped polyline [pts] of width [lw] on a [w] by [h] grid;
    [decode src] is the bitmap an [Image] element obtains from its
    [src], at its natural size, or [None] when [onload] never fires;
    [toDataURL] is [canvas.toDataURL('image/png')]; [getContext w h]
    tells whether [getContext('2d')] answers a context, rather than
    [null], on a canvas just created and sized [w] by [h]. *)
Record Platform := {
  coverage : list (number * number) -> number -> nat -> nat -> list (list Z);
  decode : JsString -> option ImageData;
  toDataURL : ImageData -> JsString;
  getContext : nat -> nat -> bool
}.

(** [ctx.stroke()]: the stroke colour, weighted by coverage, is
    composited over the bitmap. *)
Definition stroke (P : Platform) (c : Canvas) : Canvas :=
  let ink (cov : Z) : Pixel :=
    {| red := red (strokeStyle c); green := green (strokeStyle c);
       blue := blue (strokeStyle c);
       alpha := div255 (alpha (strokeStyle c) * cov) |} in
  with_bitmap c
    (overlay (overlay (fun cov d => composite (globalCompositeOperation c) (ink cov) d))
       (coverage P (path c) (lineWidth c) (width (bitmap c)) (height (bitmap c)))
       (rows (bitmap c))).

(** [ctx.closePath()]: the subpath is closed back to its first point. *)
Definition closePath (c : Canvas) : Canvas :=
  match path c with
  | [] => c
  | p :: _ => set_path (path c ++ [p]) c
  end.

(* ================================================================== *)
(** ** The [ImageEditor] component *)

Module DOMRect.
(** [DOMRect], as returned by [getBoundingClientRect()] *)
Record t := { left : number; top : number; width : number; height : number }.
End DOMRect.

Record MouseEvent := { clientX : number; clientY : number }.

(** The subtree rendered under [image ? ... : ...]: the container and
    the two canvases behind [sourceImageCanvasRef] and
    [sourceDrawingCanvasRef].  The three refs are set and unset
    together. *)
Record Dom := {
  aspectRatio : option (number * number);
  sourceImageCanvas : Canvas;
  sourceDrawingCanvas : Canvas
}.

Definition mount : Dom :=
  {| aspectRatio := None; sourceImageCanvas := createCanvas;
     sourceDrawingCanvas := createCanvas |}.

Definition with_drawing (c : Canvas) (d : Dom) : Dom :=
  {| aspectRatio := aspectRatio d; sourceImageCanvas := sourceImageCanvas d;
     sourceDrawingCanvas := c |}.

(** The [useState] slots of the component, and what its refs point to. *)
Record ImageEditor := {
  image : option SourceImage;
  referenceImage : option SourceImage;
  prompt : JsString;
  brushSize : number;
  resultImage : option JsString;
  isLoading : bool;
  isDrawing : bool;
  isZoomed : bool;
  drawingHistory : list ImageData;
  dom : option Dom
}.

Definition initial : ImageEditor :=
  {| image := None; referenceImage := None; prompt := []; brushSize := 40%float;
     resultImage := None; isLoading := false; isDrawing := false;
     isZoomed := false; drawingHistory := []; dom := None |}.

(** [setImage]; the re-render mounts the canvases when an image appears
    (fresh elements), keeps them while one stays, and unmounts them when
    it goes. *)
Definition setImage (v : option SourceImage) (st : ImageEditor) : ImageEditor :=
  {| image := v; referenceImage := referenceImage st; prompt := prompt st;
     brushSize := brushSize st; resultImage := resultImage st;
     isLoading := isLoading st; isDrawing := isDrawing st;
     isZoomed := isZoomed st; drawingHistory := drawingHistory st;
     dom := match v, dom st with
            | None, _ => None
            | Some _, Some d => Some d
            | Some _, None => Some mount
            end |}.

Definition setReferenceImage (v : option SourceImage) (st : ImageEditor) : ImageEditor :=
  {| image := image st; referenceImage := v; prompt := prompt st;
     brushSize := brushSize st; resultImage := resultImage st;
     isLoading := isLoading st; isDrawing := isDrawing st;
     isZoomed := isZoomed st; drawingHistory := drawingHistory st;
     dom := dom st |}.

Definition setPrompt (v : JsString) (st : ImageEditor) : ImageEditor :=
  {| image := image st; referenceImage := referenceImage st; prompt := v;
     brushSize := brushSize st; resultImage := resultImage st;
     isLoading := isLoading st; isDrawing := isDrawing st;
     isZoomed := isZoomed st; drawingHistory := drawingHistory st;
     dom := dom st |}.

Definition setBrushSize (v : number) (st : ImageEditor) : ImageEditor :=
  {| image := image st; referenceImage := referenceImage st; prompt := prompt st;
     brushSize := v; resultImage := resultImage st;
     isLoading := isLoading st; isDrawing := isDrawing st;
     isZoomed := isZoomed st; drawingHistory := drawingHistory st;
     dom := dom st |}.

Definition setResultImage (v : option JsString) (st : ImageEditor) : ImageEditor :=
  {| image := image st; referenceImage := referenceImage st; prompt := prompt st;
     brushSize := brushSize st; resultImage := v;
     isLoading := isLoading st; isDrawing := isDrawing st;
     isZoomed := isZoomed st; drawingHistory := drawingHistory st;
     dom := dom st |}.

Definition setIsLoading (v : bool) (st : ImageEditor) : ImageEditor :=
  {| image := image st; referenceImage := referenceImage st; prompt := prompt st;
     brushSize := brushSize st; resultImage := resultImage st;
     isLoading := v; isDrawing := isDrawing st;
     isZoomed := isZoomed st; drawingHistory := drawingHistory st;
     dom := dom st |}.

Definition setIsDrawing (v : bool) (st : ImageEditor) : ImageEditor :=
  {| image := image st; referenceImage := referenceImage st; prompt := prompt st;
     brushSize := brushSize st; resultImage := resultImage st;
     isLoading := isLoading st; isDrawing := v;
     isZoomed := isZoomed st; drawingHistory := drawingHistory st;
     dom := dom st |}.

Definition setIsZoomed (v : bool) (st : ImageEditor) : ImageEditor :=
  {| image := image st; referenceImage := referenceImage st; prompt := prompt st;
     brushSize := brushSize st; resultImage := resultImage st;
     isLoading := isLoading st; isDrawing := isDrawing st;
     isZoomed := v; drawingHistory := drawingHistory st;
     dom := dom st |}.

Definition setDrawingHistory (v : list ImageData) (st : ImageEditor) : ImageEditor :=
  {| image := image st; referenceImage := referenceImage st; prompt := prompt st;
     brushSize := brushSize st; resultImage := resultImage st;
     isLoading := isLoading st; isDrawing := isDrawing st;
     isZoomed := isZoomed st; drawingHistory := v;
     dom := dom st |}.

(** Writes through a ref: the canvases are mutated in place. *)
Definition set_dom (v : option Dom) (st : ImageEditor) : ImageEditor :=
  {| image := image st; referenceImage := referenceImage st; prompt := prompt st;
     brushSize := brushSize st; resultImage := resultImage st;
     isLoading := isLoading st; isDrawing := isDrawing st;
     isZoomed := isZoomed st; drawingHistory := drawingHistory st;
     dom := v |}.

(** Run [f] on the drawing canvas when [sourceDrawingCanvasRef.current]
    is set; the [if (canvas && ctx)] guard of the handlers. *)
Definition on_drawing (f : Canvas -> Canvas) (st : ImageEditor) : ImageEditor :=
  match dom st with
  | Some d => set_dom (Some (with_drawing (f (sourceDrawingCanvas d)) d)) st
  | None => st
  end.

Definition canvas_width (c : Canvas) : nat := width (bitmap c).
Definition canvas_height (c : Canvas) : nat := height (bitmap c).

Definition clearMask (st : ImageEditor) : ImageEditor :=
  setDrawingHistory []
    (on_drawing (fun c => clearRect (canvas_width c) (canvas_height c) c) st).

(** The body of [imageEl.onload] inside [drawImageOnCanvas].
    [containerWidth] is the layout's [clientWidth] of the container at
    that moment.  Without a mounted container the non-null assertion on
    [sourceContainerRef.current] throws and the callback does nothing. *)
Definition imageEl_onload (imageEl : ImageData) (containerWidth : number)
    (st : ImageEditor) : ImageEditor :=
  match dom st with
  | None => st
  | Some d =>
      let scale := Math_min 1 (containerWidth / of_nat (width imageEl)) in
      let width_ := (of_nat (width imageEl) * scale)%float in
      let height_ := (of_nat (height imageEl) * scale)%float in
      let resize c := set_height (height imageEl) (set_width (width imageEl) c) in
      let d' :=
        {| aspectRatio := Some (width_, height_);
           sourceImageCanvas := drawImage imageEl (resize (sourceImageCanvas d));
           sourceDrawingCanvas := resize (sourceDrawingCanvas d) |} in
      clearMask (set_dom (Some d') st)
  end.

(** [drawImageOnCanvas]: nothing without an image or without the refs;
    otherwise an [Image] is created and, if it decodes, its [onload]
    callback is what runs later. *)
Definition drawImageOnCanvas (P : Platform) (st : ImageEditor)
    : option (number -> ImageEditor -> ImageEditor) :=
  match image st, dom st with
  | Some img, Some _ =>
      match decode P (toDataUrl img) with
      | Some imageEl => Some (imageEl_onload imageEl)
      | None => None
      end
  | _, _ => None
  end.

Definition getMousePos (canvas : Canvas) (rect : DOMRect.t) (evt : MouseEvent)
    : number * number :=
  let scaleX := (of_nat (canvas_width canvas) / DOMRect.width rect)%float in
  let scaleY := (of_nat (canvas_height canvas) / DOMRect.height rect)%float in
  (((clientX evt - DOMRect.left rect) * scaleX)%float,
   ((clientY evt - DOMRect.top rect) * scaleY)%float).

(** [rect] is what [getBoundingClientRect()] of the drawing canvas
    answers during the event. *)
Definition startDrawing (e : MouseEvent) (rect : DOMRect.t) (st : ImageEditor)
    : ImageEditor :=
  on_drawing (fun c => beginPath_moveTo (getMousePos c rect e) c)
    (setIsDrawing true st).

Definition draw (P : Platform) (e : MouseEvent) (rect : DOMRect.t)
    (st : ImageEditor) : ImageEditor :=
  if negb (isDrawing st) then st
  else
    on_drawing
      (fun c =>
         let pos := getMousePos c rect e in
         let nativeBrushSize :=
           (brushSize st * (of_nat (canvas_width c) / DOMRect.width rect))%float in
         let c := lineTo pos c in
         let c := set_strokeStyle highlight c in
         let c := set_lineWidth nativeBrushSize c in
         stroke P c)
      st.

Definition stopDrawing (st : ImageEditor) : ImageEditor :=
  let st' :=
    match dom st with
    | Some d =>
        let c := closePath (sourceDrawingCanvas d) in
        let imageData := getImageData c in
        setDrawingHistory (drawingHistory st ++ [imageData])
          (set_dom (Some (with_drawing c d)) st)
    | None => st
    end in
  setIsDrawing false st'.

Definition handleUndo (st : ImageEditor) : ImageEditor :=
  if (length (drawingHistory st) =? 0)%nat then st
  else
    let newHistory := removelast (drawingHistory st) in
    on_drawing
      (fun c =>
         let c := clearRect (canvas_width c) (canvas_height c) c in
         if (0 <? length newHistory)%nat
         then putImageData (last newHistory (blank 0 0)) c
         else c)
      (setDrawingHistory newHistory st).

Definition handleZoomSave (finalImageData : ImageData) (st : ImageEditor) : ImageEditor :=
  let st' :=
    match dom st with
    | Some d =>
        let c := sourceDrawingCanvas d in
        let c := clearRect (canvas_width c) (canvas_height c) c in
        let c := putImageData finalImageData c in
        setDrawingHistory (drawingHistory st ++ [finalImageData])
          (set_dom (Some (with_drawing c d)) st)
    | None => st
    end in
  setIsZoomed false st'.

(** The canvas operations of [generateMaskImage] once [maskCtx] is
    there, up to the point where the result is encoded: the content of
    [maskCanvas] on which [toDataURL] is called.  The drawing canvas
    starts at 300 by 150 and is only ever resized to a decoded picture,
    so [drawImage] never meets an empty source. *)
Definition maskCanvas (drawingCanvas : Canvas) : Canvas :=
  let m := createCanvas in
  let m := set_width (canvas_width drawingCanvas) m in
  let m := set_height (canvas_height drawingCanvas) m in
  let m := set_fillStyle black m in
  let m := fillRect (canvas_width m) (canvas_height m) m in
  let m := set_globalCompositeOperation SourceOver m in
  let m := drawImage (bitmap drawingCanvas) m in
  let m := set_globalCompositeOperation SourceIn m in
  let m := set_fillStyle white m in
  fillRect (canvas_width m) (canvas_height m) m.

(** [","] *)
Definition comma : char16 := 44%N.

(** [generateMaskImage]: [null] without a drawing canvas, and [null]
    when the mask canvas created for the occasion gets no 2D context.
    [toDataURL] always answers a string with a comma in it
    (["data:image/png;base64,..."], or ["data:,"] for an empty canvas),
    so [split(',')[1]] is defined. *)
Definition generateMaskImage (P : Platform) (st : ImageEditor) : option SourceImage :=
  match dom st with
  | None => None
  | Some d =>
      let drawingCanvas := sourceDrawingCanvas d in
      if getContext P (canvas_width drawingCanvas) (canvas_height drawingCanvas)
      then
        let dataUrl := toDataURL P (bitmap (maskCanvas drawingCanvas)) in
        let base64 := nth 1 (split comma dataUrl) [] in
        Some {| base64 := base64; mimeType := js "image/png" |}
      else None
  end.

(** The three [alert] calls of [handleGenerate]:
    missing image or prompt, mask could not be produced, edit failed. *)
Inductive Alert := AlertMissingInput | AlertMaskFailed | AlertEditFailed.

Module Details.
(** The argument of [onEditComplete]:
    [Omit<EditHistoryItem, 'id' | 'timestamp'>] *)
Record t := {
  sourceImage : SourceImage;
  maskImage : SourceImage;
  referenceImage : option SourceImage;
  prompt : JsString;
  resultImage : JsString
}.
End Details.

(** The arguments of the call [editImage(image, maskImage, prompt,
    referenceImage)], captured by the closure across the [await]. *)
Record EditRequest := {
  req_image : SourceImage;
  req_mask : SourceImage;
  req_prompt : JsString;
  req_reference : option SourceImage
}.

(** How the promise of [editImage] settles: resolved with
    [string | null], or rejected. *)
Inductive Response := Resolved (result : option JsString) | Rejected.

(** What the first, synchronous part of [handleGenerate] ends in. *)
Inductive Submission := Blocked (a : Alert) | Sent (r : EditRequest).

(** What the handler does to the outside after the [await]. *)
Inductive Effect :=
| ConsoleError
| Alerted (a : Alert)
| OnEditComplete (d : Details.t).

(** [handleGenerate] up to the [await]. *)
Definition handleGenerate (P : Platform) (st : ImageEditor) : ImageEditor * Submission :=
  match image st with
  | None => (st, Blocked AlertMissingInput)
  | Some img =>
      if falsy (prompt st) then (st, Blocked AlertMissingInput)
      else
        match generateMaskImage P st with
        | None => (st, Blocked AlertMaskFailed)
        | Some maskImage =>
            (setResultImage None (setIsLoading true st),
             Sent {| req_image := img; req_mask := maskImage;
                     req_prompt := prompt st;
                     req_reference := referenceImage st |})
        end
  end.

(** [if (result)]: neither [null] nor the empty string. *)
Definition truthy_result (result : option JsString) : option JsString :=
  match result with
  | Some s => if falsy s then None else Some s
  | None => None
  end.

(** [handleGenerate] from the [await] on: the [try] body after the
    call, [catch] and [finally], run on the state of that moment. *)
Definition handleGenerate_settled (r : EditRequest) (resp : Response)
    (st : ImageEditor) : ImageEditor * list Effect :=
  let failed := (setIsLoading false st, [ConsoleError; Alerted AlertEditFailed]) in
  match resp with
  | Rejected => failed
  | Resolved result =>
      match truthy_result result with
      | None => failed
      | Some url =>
          (setIsLoading false (setResultImage (Some url) st),
           [OnEditComplete
              {| Details.sourceImage := req_image r;
                 Details.maskImage := req_mask r;
                 Details.prompt := req_prompt r;
                 Details.referenceImage := req_reference r;
                 Details.resultImage := url |}])
      end
  end.

Definition handleContinueEditing (st : ImageEditor) : ImageEditor :=
  match truthy_result (resultImage st) with
  | None => st
  | Some url =>
      match dataUrlToSourceImage url with
      | Some newSource =>
          setReferenceImage None (setResultImage None (setImage (Some newSource) st))
      | None => st
      end
  end.

(** The events of one editing session on the drawing layer. *)
Inductive Event :=
| MouseDown (e : MouseEvent) (rect : DOMRect.t)
| MouseMove (e : MouseEvent) (rect : DOMRect.t)
| MouseUp
| MouseLeave
| Undo
| ClearMask
| ZoomSave (finalImageData : ImageData)
| BrushSize (v : number)
| Prompt (v : JsString).

Definition step (P : Platform) (st : ImageEditor) (ev : Event) : ImageEditor :=
  match ev with
  | MouseDown e rect => startDrawing e rect st
  | MouseMove e rect => draw P e rect st
  | MouseUp | MouseLeave => stopDrawing st
  | Undo => handleUndo st
  | ClearMask => clearMask st
  | ZoomSave d => handleZoomSave d st
  | BrushSize v => setBrushSize v st
  | Prompt v => setPrompt v st
  end.

Definition run (P : Platform) (evs : list Event) (st : ImageEditor) : ImageEditor :=
  fold_left (step P) evs st.

(* ================================================================== *)
(** ** [App.tsx]: the persisted edit history *)

(** [handleEditComplete]; [now] is [Date.now()] and [stamp] the
    [toLocaleTimeString] rendering of the same instant.  The list is
    the [editHistory] state that an effect writes to local storage. *)
Definition handleEditComplete (now : Z) (stamp : JsString) (details : Details.t)
    (editHistory : list Item.t) : list Item.t :=
  let newHistoryItem :=
    {| Item.id := now; Item.timestamp := stamp;
       Item.sourceImage := Details.sourceImage details;
       Item.maskImage := Details.maskImage details;
       Item.referenceImage := Details.referenceImage details;
       Item.prompt := Details.prompt details;
       Item.resultImage := Details.resultImage details |} in
  newHistoryItem :: editHistory.

Record App := {
  editor : ImageEditor;
  editHistory : list Item.t
}.

(** Hand the effects of a settled edit to the props of the component:
    [onEditComplete] is [handleEditComplete]. *)
Fixpoint deliver (now : Z) (stamp : JsString) (effs : list Effect)
    (h : list Item.t) : list Item.t :=
  match effs with
  | [] => h
  | OnEditComplete d :: effs' => deliver now stamp effs' (handleEditComplete now stamp d h)
  | _ :: effs' => deliver now stamp effs' h
  end.

(** One edit round trip seen from the application. *)
Inductive AppEvent :=
| Session (ev : Event)
| Settled (r : EditRequest) (resp : Response) (now : Z) (stamp : JsString).

Definition app_step (P : Platform) (a : App) (ev : AppEvent) : App :=
  match ev with
  | Session e => {| editor := step P (editor a) e; editHistory := editHistory a |}
  | Settled r resp now stamp =>
      let (st', effs) := handleGenerate_settled r resp (editor a) in
      {| editor := st'; editHistory := deliver now stamp effs (editHistory a) |}
  end.

Definition app_run (P : Platform) (evs : list AppEvent) (a : App) : App :=
  fold_left (app_step P) evs a.

(** The items a run is expected to add, oldest first. *)
Fixpoint completions (evs : list AppEvent) : list Item.t :=
  match evs with
  | [] => []
  | Settled r (Resolved (Some (c :: url))) now stamp :: evs' =>
      {| Item.id := now; Item.timestamp := stamp;
         Item.sourceImage := req_image r; Item.maskImage := req_mask r;
         Item.referenceImage := req_reference r; Item.prompt := req_prompt r;
         Item.resultImage := c :: url |} :: completions evs'
  | _ :: evs' => completions evs'
  end.

(** [handleGenerate] as the application sees it: the handler has no
    access to [editHistory] before the call settles. *)
Definition app_generate (P : Platform) (a : App) : App * Submission :=
  let (st', sub) := handleGenerate P (editor a) in
  ({| editor := st'; editHistory := editHistory a |}, sub).

(* ================================================================== *)
(** ** Vocabulary of the statements *)

(** ["image/"] followed by one or more lowercase ASCII letters. *)
Definition image_mime (m : JsString) : Prop :=
  exists letters,
    letters <> [] /\ forallb is_lower letters = true /\ m = js "image/" ++ letters.

(** A payload the pattern's [(.+)$] accepts. *)
Definition one_line (s : JsString) : Prop :=
  s <> [] /\ forallb dot s = true.

(** A sample of a strict black-and-white mask. *)
Definition binary (p : Pixel) : Prop := p = black \/ p = white.

(** A sample no stroke has reached. *)
Definition untouched (p : Pixel) : Prop := alpha p = 0.

Definition same_size (a b : ImageData) : Prop :=
  width a = width b /\ height a = height b.

(** Native size of the drawing layer, when it is mounted. *)
Definition drawing_size (st : ImageEditor) : option (nat * nat) :=
  match dom st with
  | None => None
  | Some d => Some (canvas_width (sourceDrawingCanvas d),
                    canvas_height (sourceDrawingCanvas d))
  end.

Definition opaque (p : Pixel) : Prop := alpha p = 255.

(** The drawing layer shows the most recent snapshot, or nothing when
    the stack is empty. *)
Definition layer_matches_stack (st : ImageEditor) : Prop :=
  match dom st with
  | None => True
  | Some d =>
      let c := sourceDrawingCanvas d in
      bitmap c = last (drawingHistory st) (blank (canvas_width c) (canvas_height c))
  end.

(** Every snapshot of the stack is a full capture of the drawing layer
    at its current size. *)
Definition snapshots_fit (st : ImageEditor) : Prop :=
  match dom st with
  | None => True
  | Some d =>
      well_formed (bitmap (sourceDrawingCanvas d)) /\
      Forall (fun s => well_formed s /\ same_size s (bitmap (sourceDrawingCanvas d)))
        (drawingHistory st)
  end.

(** What the zoom editor may hand back: a full capture at the size of
    the drawing layer (its own canvases are sized from the same
    picture).  The other events carry no raster. *)
Definition admissible (st : ImageEditor) (ev : Event) : Prop :=
  match ev, dom st with
  | ZoomSave finalImageData, Some d =>
      well_formed finalImageData /\
      same_size finalImageData (bitmap (sourceDrawingCanvas d))
  | _, _ => True
  end.

Fixpoint admissible_run (P : Platform) (st : ImageEditor) (evs : list Event) : Prop :=
  match evs with
  | [] => True
  | ev :: evs' => admissible st ev /\ admissible_run P (step P st ev) evs'
  end.

(** The platform's PNG codec on rasters of [w] by [h]: [toDataURL]
    answers ["data:image/png;base64,"] followed by a payload without a
    comma, and an [Image] given that URL decodes to a picture of the
    same size. *)
Definition png_codec_keeps_size (P : Platform) (w h : nat) : Prop :=
  forall b,
    well_formed b -> width b = w -> height b = h ->
    exists payload back,
      toDataURL P b = js "data:image/png;base64," ++ payload /\
      ~ In comma payload /\
      decode P (toDataURL P b) = Some back /\
      width back = w /\ height back = h.

(** The three ways the external call fails: the promise rejects, or it
    resolves with [null] or with an empty string. *)
Definition failure (resp : Response) : Prop :=
  match resp with
  | Rejected => True
  | Resolved result => truthy_result result = None
  end.

(* ================================================================== *)
(** ** A small platform to run the handlers on *)

Module Bench.

(** Aliased square dabs: a sample is covered when its centre lies
    within half the line width of a vertex of the path, on both axes. *)
Definition near (lw : number) (x y : nat) (p : number * number) : bool :=
  let cx := (of_nat x + 0.5)%float in
  let cy := (of_nat y + 0.5)%float in
  let r := (lw / 2)%float in
  ((fst p - r <=? cx)%float && (cx <=? fst p + r)%float
   && (snd p - r <=? cy)%float && (cy <=? snd p + r)%float).

Definition dabs (pts : list (number * number)) (lw : number) (w h : nat)
    : list (list Z) :=
  map (fun y => map (fun x => if existsb (near lw x y) pts then 255 else 0)
                  (seq 0 w))
      (seq 0 h).

Definition gray : Pixel := {| red := 128; green := 128; blue := 128; alpha := 255 |}.

Definition picture : ImageData :=
  {| width := 4; height := 4; rows := repeat (repeat gray 4) 4 |}.

(** The dab rasteriser, a decoder that knows every well-shaped URL as
    the 4 by 4 gray picture and nothing else, an encoder with a fixed
    payload, and a 2D context for every canvas. *)
Definition platform : Platform :=
  {| coverage := dabs;
     decode := fun src => match dataUrlToSourceImage src with
                          | Some _ => Some picture
                          | None => None
                          end;
     toDataURL := fun _ => js "data:image/png;base64,iVBORw0KGgo=";
     getContext := fun _ _ => true |}.

(** The same platform when it has no further 2D context to give. *)
Definition exhausted : Platform :=
  {| coverage := coverage platform; decode := decode platform;
     toDataURL := toDataURL platform; getContext := fun _ _ => false |}.

Definition png : SourceImage :=
  {| base64 := js "AAAA"; mimeType := js "image/png" |}.

(** An image has been chosen and has finished loading. *)
Definition loaded : ImageEditor :=
  imageEl_onload picture 500 (setImage (Some png) initial).

(** One stroke: press at the centre, move one CSS pixel to the right,
    release.  The canvas is shown at its native size. *)
Definition rect : DOMRect.t :=
  {| DOMRect.left := 0; DOMRect.top := 0; DOMRect.width := 4; DOMRect.height := 4 |}.

Definition one_stroke : list Event :=
  [ BrushSize 1;
    MouseDown {| clientX := 1.5; clientY := 1.5 |} rect;
    MouseMove {| clientX := 2.5; clientY := 1.5 |} rect;
    MouseUp ].

Definition painted : ImageEditor := run platform one_stroke loaded.



(** The same session with a prompt typed in and an earlier result on
    display. *)
Definition ready : ImageEditor :=
  setResultImage (Some (js "data:image/png;base64,BBBB"))
    (setPrompt (js "add a pool") painted).

End Bench.

(* ================================================================== *)
(** ** More of [ImageEditor.tsx]: uploads, effects, the zoom editor *)

(** [s.startsWith(prefix)] *)
Definition startsWith (prefix s : JsString) : bool :=
  match strip_prefix prefix s with Some _ => true | None => false end.

(** The [reader.onload] callback of [processFile]; [result] is what
    [FileReader.readAsDataURL] produced.  [split(',')[1]] may be
    undefined, and [if (base64)] drops that and the empty string. *)
Definition reader_onload (fileType result : JsString) (st : ImageEditor) : ImageEditor :=
  match nth_error (split comma result) 1 with
  | Some base64 =>
      if falsy base64 then st
      else setReferenceImage None
             (setResultImage None
                (setImage (Some {| base64 := base64; mimeType := fileType |}) st))
  | None => st
  end.


(** [processFile]: a file whose type does not start with ["image/"] is
    answered with an alert ([None]); otherwise the file is read and the
    callback runs on the result. *)
Definition processFile (fileType : JsString)
    : option (JsString -> ImageEditor -> ImageEditor) :=
  if startsWith (js "image/") fileType then Some (reader_onload fileType)
  else None.

(** The effect on [initialImage]: a picture handed over by another tab
    replaces the source and resets prompt, result and reference. *)
Definition initialImage_effect (initialImage : option SourceImage)
    (st : ImageEditor) : ImageEditor :=
  match initialImage with
  | Some img =>
      setReferenceImage None
        (setPrompt [] (setResultImage None (setImage (Some img) st)))
  | None => st
  end.

(** The effect on [historyItemToRestore]. *)
Definition historyItemToRestore_effect (item : option Item.t)
    (st : ImageEditor) : ImageEditor :=
  match item with
  | Some i =>
      clearMask
        (setReferenceImage (Item.referenceImage i)
           (setResultImage (Some (Item.resultImage i))
              (setPrompt (Item.prompt i)
                 (setImage (Some (Item.sourceImage i)) st))))
  | None => st
  end.


(** [ZoomEditorModal]: its own brush, stack and pair of canvases. *)
Module Zoom.

Record Dom := { imageCanvas : Canvas; drawingCanvas : Canvas }.

Record t := {
  brushSize : number;
  isDrawing : bool;
  drawingHistory : list ImageData;
  dom : option Dom
}.


Definition setBrushSize (v : number) (z : t) : t :=
  {| brushSize := v; isDrawing := isDrawing z;
     drawingHistory := drawingHistory z; dom := dom z |}.

Definition setIsDrawing (v : bool) (z : t) : t :=
  {| brushSize := brushSize z; isDrawing := v;
     drawingHistory := drawingHistory z; dom := dom z |}.

Definition setDrawingHistory (v : list ImageData) (z : t) : t :=
  {| brushSize := brushSize z; isDrawing := isDrawing z;
     drawingHistory := v; dom := dom z |}.

Definition set_dom (v : option Dom) (z : t) : t :=
  {| brushSize := brushSize z; isDrawing := isDrawing z;
     drawingHistory := drawingHistory z; dom := v |}.

Definition on_drawing (f : Canvas -> Canvas) (z : t) : t :=
  match dom z with
  | Some d =>
      set_dom (Some {| imageCanvas := imageCanvas d;
                       drawingCanvas := f (drawingCanvas d) |}) z
  | None => z
  end.

(** [imageEl.onload] of the modal's effect. *)
Definition imageEl_onload (imageEl : ImageData) (initialDrawingData : option ImageData)
    (z : t) : t :=
  let resize c := set_height (height imageEl) (set_width (width imageEl) c) in
  let z1 :=
    match dom z with
    | Some d =>
        set_dom (Some {| imageCanvas := drawImage imageEl (resize (imageCanvas d));
                         drawingCanvas := resize (drawingCanvas d) |}) z
    | None => z
    end in
  match initialDrawingData with
  | Some data => setDrawingHistory [data] (on_drawing (putImageData data) z1)
  | None => z1
  end.

Definition getMousePos (canvas : Canvas) (rect : DOMRect.t) (evt : MouseEvent)
    : number * number :=
  (((clientX evt - DOMRect.left rect)
    * (of_nat (canvas_width canvas) / DOMRect.width rect))%float,
   ((clientY evt - DOMRect.top rect)
    * (of_nat (canvas_height canvas) / DOMRect.height rect))%float).

Definition startDrawing (e : MouseEvent) (rect : DOMRect.t) (z : t) : t :=
  on_drawing (fun c => beginPath_moveTo (getMousePos c rect e) c)
    (setIsDrawing true z).

(** Unlike the main editor, the brush size is used as it is. *)
Definition draw (P : Platform) (e : MouseEvent) (rect : DOMRect.t) (z : t) : t :=
  if negb (isDrawing z) then z
  else
    on_drawing
      (fun c =>
         let pos := getMousePos c rect e in
         let c := lineTo pos c in
         let c := set_strokeStyle highlight c in
         let c := set_lineWidth (brushSize z) c in
         stroke P c)
      z.

Definition stopDrawing (z : t) : t :=
  let z' :=
    match dom z with
    | Some d =>
        let c := closePath (drawingCanvas d) in
        setDrawingHistory (drawingHistory z ++ [getImageData c])
          (set_dom (Some {| imageCanvas := imageCanvas d; drawingCanvas := c |}) z)
    | None => z
    end in
  setIsDrawing false z'.

Definition handleUndo (z : t) : t :=
  if (length (drawingHistory z) =? 0)%nat then z
  else
    let newHistory := removelast (drawingHistory z) in
    on_drawing
      (fun c =>
         let c := clearRect (canvas_width c) (canvas_height c) c in
         if (0 <? length newHistory)%nat
         then putImageData (last newHistory (blank 0 0)) c
         else c)
      (setDrawingHistory newHistory z).


Inductive Event :=
| MouseDown (e : MouseEvent) (rect : DOMRect.t)
| MouseMove (e : MouseEvent) (rect : DOMRect.t)
| MouseUp
| MouseLeave
| Undo
| BrushSize (v : number).

Definition step (P : Platform) (z : t) (ev : Event) : t :=
  match ev with
  | MouseDown e rect => startDrawing e rect z
  | MouseMove e rect => draw P e rect z
  | MouseUp | MouseLeave => stopDrawing z
  | Undo => handleUndo z
  | BrushSize v => setBrushSize v z
  end.

Definition run (P : Platform) (evs : list Event) (z : t) : t :=
  fold_left (step P) evs z.


End Zoom.

(** The prop [initialDrawingData] in the JSX of the main editor. *)
Definition initialDrawingData (st : ImageEditor) : option ImageData :=
  if (0 <? length (drawingHistory st))%nat
  then Some (last (drawingHistory st) (blank 0 0))
  else None.


Module Rect.
(** The bounding box of the slider's container, its numbers taken as
    exact rationals. *)
Record t := { left : Q; top : Q; width : Q; height : Q }.
End Rect.

(** [ImageCompareSlider]: the position of the divider, in percent. *)
Module Slider.

(** [handleMove]; [rect] is the bounding box of the container, absent
    while the ref is not set. *)
Definition handleMove (rect : option Rect.t) (clientX : Q) (sliderPosition : Q) : Q :=
  match rect with
  | None => sliderPosition
  | Some r =>
      let x := Qmax 0 (Qmin (clientX - Rect.left r) (Rect.width r)) in
      (x / Rect.width r * 100)%Q
  end.

End Slider.

(* ================================================================== *)
(** ** [geminiService.ts]: the edit call *)

Module InlineData.
Record t := { data : JsString; mimeType : JsString }.
End InlineData.

(** One element of [parts]: of the fields a part may carry, the two
    the service looks at. *)
Record Part := {
  inlineData : option InlineData.t;
  text : option JsString
}.

(** [{ inlineData: { data: img.base64, mimeType: img.mimeType } }] *)
Definition inline_part (img : SourceImage) : Part :=
  {| inlineData := Some {| InlineData.data := base64 img;
                           InlineData.mimeType := mimeType img |};
     text := None |}.

Definition text_part (t : JsString) : Part :=
  {| inlineData := None; text := Some t |}.

(** The loop of [extractBase64Image] over [candidates[0].content.parts]. *)
Fixpoint first_inline (parts : list Part) : option JsString :=
  match parts with
  | [] => None
  | part :: rest =>
      match inlineData part with
      | Some i =>
          Some (js "data:" ++ InlineData.mimeType i ++ js ";base64," ++ InlineData.data i)
      | None => first_inline rest
      end
  end.

(** [extractBase64Image]; a response is the list of its candidates, each
    given by its [content.parts].  Without a first candidate the
    property access throws: the outer [None]. *)
Definition extractBase64Image (response : list (list Part)) : option (option JsString) :=
  match response with
  | [] => None
  | parts :: _ => Some (first_inline parts)
  end.

Definition quote : char16 := 34%N.

(** The two templates of [editImage], around the quoted user prompt. *)
Definition engineeredPrompt (withReference : bool) (prompt : JsString) : JsString :=
  if withReference
  then js "You are an expert photo editor. You will receive an original image, a mask image, a reference image, and a text prompt. Your task is to edit the original image *exclusively* within the white area defined by the mask. You MUST use the third image as a style and material reference. Apply the texture, material, color, and overall style from the reference image onto the masked area of the original image. The black area of the mask MUST remain untouched. The user's instruction for the edit is: "
       ++ [quote] ++ prompt ++ [quote]
       ++ js ". The final output should be a photorealistic image where the edits are seamlessly blended."
  else js "You are an expert photo editor. You will receive an original image, a mask image, and a text prompt. Your task is to edit the original image *exclusively* within the white area defined by the mask. The black area of the mask represents the parts of the image that MUST remain completely untouched. The user's instruction for the edit is: "
       ++ [quote] ++ prompt ++ [quote]
       ++ js ". Whether this involves adding a new object, removing an existing one, or altering features, confine all changes strictly to the masked region. The final output should be a photorealistic image where the edits are seamlessly blended with the surrounding, unchanged areas.".

(** The argument of [ai.models.generateContent]. *)
Inductive Modality := MODALITY_UNSPECIFIED | TEXT | IMAGE | AUDIO.

Record GenerateContentRequest := {
  model : JsString;
  contents : list Part;
  responseModalities : list Modality
}.

Definition editImage_request (sourceImage maskImage : SourceImage) (prompt : JsString)
    (referenceImage : option SourceImage) : GenerateContentRequest :=
  let parts := [inline_part sourceImage; inline_part maskImage] in
  let parts :=
    match referenceImage with
    | Some ref => parts ++ [inline_part ref]
    | None => parts
    end in
  let engineered :=
    engineeredPrompt (match referenceImage with Some _ => true | None => false end)
      prompt in
  {| model := js "gemini-2.5-flash-image";
     contents := parts ++ [text_part engineered];
     responseModalities := [IMAGE] |}.

(** [editImage].  [API_KEY] is the environment's key; the remote call
    answers with a response or throws ([None]). *)
Definition editImage (API_KEY : option JsString)
    (generateContent : GenerateContentRequest -> option (list (list Part)))
    (sourceImage maskImage : SourceImage) (prompt : JsString)
    (referenceImage : option SourceImage) : Response :=
  match truthy_result API_KEY with
  | None => Rejected
  | Some _ =>
      match generateContent
              (editImage_request sourceImage maskImage prompt referenceImage) with
      | None => Rejected
      | Some response =>
          match extractBase64Image response with
          | None => Rejected
          | Some result => Resolved result
          end
      end
  end.

(** The ways the service comes back without a picture: no key, a call
    that throws, no candidate, or a first candidate without inline
    data. *)
Definition pictureless (API_KEY : option JsString)
    (answer : option (list (list Part))) : Prop :=
  truthy_result API_KEY = None \/
  match answer with
  | None => True
  | Some [] => True
  | Some (parts :: _) => Forall (fun p => inlineData p = None) parts
  end.

(** An edit round trip end to end: [handleGenerate], the service call,
    and the rest of the handler. *)
Definition submitEdit (P : Platform) (API_KEY : option JsString)
    (generateContent : GenerateContentRequest -> option (list (list Part)))
    (st : ImageEditor) : ImageEditor * list Effect :=
  match handleGenerate P st with
  | (st', Blocked a) => (st', [Alerted a])
  | (st', Sent r) =>
      handleGenerate_settled r
        (editImage API_KEY generateContent (req_image r) (req_mask r)
           (req_prompt r) (req_reference r))
        st'
  end.

(* ================================================================== *)
(** ** More of [App.tsx] *)

(** [ImageViewerModal]: the index of the picture on show. *)
Module Viewer.

Definition handlePrev (prev : Z) : Z := if 0 <? prev then prev - 1 else prev.

Definition handleNext (length : Z) (prev : Z) : Z :=
  if prev <? length - 1 then prev + 1 else prev.

Inductive Key := ArrowLeft | ArrowRight | Escape | OtherKey.

(** [handleKeyDown]: the new index, and whether [onClose] was called. *)
Definition handleKeyDown (length : Z) (key : Key) (currentIndex : Z) : Z * bool :=
  match key with
  | ArrowLeft => (handlePrev currentIndex, false)
  | ArrowRight => (handleNext length currentIndex, false)
  | Escape => (currentIndex, true)
  | OtherKey => (currentIndex, false)
  end.

Inductive Event := Prev | Next | KeyDown (key : Key).

Definition step (length : Z) (currentIndex : Z) (ev : Event) : Z :=
  match ev with
  | Prev => handlePrev currentIndex
  | Next => handleNext length currentIndex
  | KeyDown key => fst (handleKeyDown length key currentIndex)
  end.

End Viewer.

Module Render.
(** [RenderHistoryItem] *)
Record t := {
  id : Z;
  timestamp : JsString;
  images : list JsString;
  prompt : JsString
}.
End Render.

(** [===] on strings *)
Fixpoint JsString_eqb (a b : JsString) : bool :=
  match a, b with
  | [], [] => true
  | x :: a', y :: b' => (x =? y)%N && JsString_eqb a' b'
  | _, _ => false
  end.

(** [array.findIndex(p)], with [None] for -1. *)
Fixpoint findIndex {A} (p : A -> bool) (l : list A) : option nat :=
  match l with
  | [] => None
  | a :: l' => if p a then Some 0%nat else option_map S (findIndex p l')
  end.

(** [array.includes(s)] for an array of strings *)
Definition includes (s : JsString) (l : list JsString) : bool :=
  existsb (JsString_eqb s) l.

(** [copy[i] = v] for an index inside the array (the indexes used come
    from [findIndex]). *)
Fixpoint replace_at {A} (i : nat) (v : A) (l : list A) : list A :=
  match i, l with
  | _, [] => []
  | O, _ :: l' => v :: l'
  | S i', a :: l' => a :: replace_at i' v l'
  end.

(** The updater that [handleUpscale] passes to each of the four history
    setters. *)
Definition upscale_history (sourceDataUrl upscaledImage : JsString)
    (prev : list Render.t) : list Render.t :=
  let newHistory := prev in
  match findIndex (fun item => includes sourceDataUrl (Render.images item)) newHistory with
  | Some historyItemIndex =>
      match nth_error newHistory historyItemIndex with
      | Some latestItem =>
          match findIndex (fun img => JsString_eqb img sourceDataUrl)
                  (Render.images latestItem) with
          | Some imageIndexInHistory =>
              let newImages :=
                replace_at imageIndexInHistory upscaledImage (Render.images latestItem) in
              replace_at historyItemIndex
                {| Render.id := Render.id latestItem;
                   Render.timestamp := Render.timestamp latestItem;
                   Render.images := newImages;
                   Render.prompt := Render.prompt latestItem |}
                newHistory
          | None => newHistory
          end
      | None => newHistory
      end
  | None => newHistory
  end.

Inductive AppTab :=
| exterior | interior | floorplan | masterplan | virtual_tour | edit | utilities.

(** The slots of [App] around the editor. *)
Record Shell := {
  inner : App;
  activeTab : AppTab;
  imageForEditing : option SourceImage;
  editHistoryItemToRestore : option Item.t
}.

Definition handleEditRequest (imageUrl : JsString) (sh : Shell) : Shell :=
  match dataUrlToSourceImage imageUrl with
  | Some imageToEdit =>
      {| inner := inner sh; activeTab := edit; imageForEditing := Some imageToEdit;
         editHistoryItemToRestore := editHistoryItemToRestore sh |}
  | None => sh
  end.

Definition handleSelectEditHistoryItem (item : Item.t) (sh : Shell) : Shell :=
  {| inner := inner sh; activeTab := edit; imageForEditing := imageForEditing sh;
     editHistoryItemToRestore := Some item |}.

(** The two prop effects of the editor after a render of [App], in the
    order the component declares them, with their callbacks
    [onClearInitialImage] and [onHistoryRestored]. *)
Definition commit_effects (sh : Shell) : Shell :=
  let st := initialImage_effect (imageForEditing sh) (editor (inner sh)) in
  let st := historyItemToRestore_effect (editHistoryItemToRestore sh) st in
  {| inner := {| editor := st; editHistory := editHistory (inner sh) |};
     activeTab := activeTab sh; imageForEditing := None;
     editHistoryItemToRestore := None |}.

(** A settled edit seen from [App]. *)
Definition shell_settled (r : EditRequest) (resp : Response) (now : Z)
    (stamp : JsString) (sh : Shell) : Shell :=
  let (st', effs) := handleGenerate_settled r resp (editor (inner sh)) in
  {| inner := {| editor := st';
               editHistory := deliver now stamp effs (editHistory (inner sh)) |};
     activeTab := activeTab sh; imageForEditing := imageForEditing sh;
     editHistoryItemToRestore := editHistoryItemToRestore sh |}.

(* ================================================================== *)
(** ** [VirtualTourTab.tsx]: the tour and its undo and redo stacks *)

(** [/data:(image\/[a-z]+);/] tried at the head of the input: the
    captured group. *)
Definition match_mime_here (s : JsString) : option JsString :=
  match strip_prefix (js "data:") s with
  | None => None
  | Some r1 =>
      match strip_prefix (js "image/") r1 with
      | None => None
      | Some r2 =>
          let (letters, r3) := span is_lower r2 in
          if falsy letters then None
          else match strip_prefix (js ";") r3 with
               | Some _ => Some (js "image/" ++ letters)
               | None => None
               end
      end
  end.

(** The pattern is not anchored: [match] tries every start position
    from the left and keeps the first that succeeds. *)
Fixpoint search_mime (s : JsString) : option JsString :=
  match match_mime_here s with
  | Some m => Some m
  | None =>
      match s with
      | [] => None
      | _ :: s' => search_mime s'
      end
  end.

Module Tour.

Inductive TourMoveType :=
| pan_left | pan_right | pan_up | pan_down
| orbit_left | orbit_right | zoom_in | zoom_out.

(** The state slots of the tab.  The stacks are arrays of pictures; the
    handlers put [currentImage!] on them, which is null when there is
    no current picture, hence the options.  [loadingMessage] is kept as
    the move whose table entry is shown. *)
Record t := {
  currentImage : option SourceImage;
  undoStack : list (option SourceImage);
  redoStack : list (option SourceImage);
  isLoading : bool;
  loadingMessage : option TourMoveType;
  magnitude : Z
}.

Definition initial : t :=
  {| currentImage := None; undoStack := []; redoStack := [];
     isLoading := false; loadingMessage := None; magnitude := 30 |}.

Definition handleImageUpload (image : SourceImage) (z : t) : t :=
  {| currentImage := Some image; undoStack := []; redoStack := [];
     isLoading := isLoading z; loadingMessage := loadingMessage z;
     magnitude := magnitude z |}.

Definition handleRemoveImage (z : t) : t :=
  {| currentImage := None; undoStack := []; redoStack := [];
     isLoading := isLoading z; loadingMessage := loadingMessage z;
     magnitude := magnitude z |}.

(** The picture built from the service's answer.  The answer comes
    from [extractBase64Image] through [generateImages], so it holds a
    comma and [split(',')[1]] is defined; the default [[]] stands for
    the [undefined] of an answer without one. *)
Definition newImage (newImageSrc : JsString) : SourceImage :=
  {| base64 := nth 1 (split comma newImageSrc) [];
     mimeType := match search_mime newImageSrc with
                 | Some m => m
                 | None => js "image/png"
                 end |}.

(** [handleNavigate] up to the [await]: without a picture, an alert
    ([None]) and nothing else; otherwise the loading state is set and
    the call goes out with the current picture. *)
Definition handleNavigate (moveType : TourMoveType) (z : t)
    : t * option (SourceImage * TourMoveType * Z) :=
  match currentImage z with
  | None => (z, None)
  | Some img =>
      ({| currentImage := currentImage z; undoStack := undoStack z;
          redoStack := redoStack z; isLoading := true;
          loadingMessage := Some moveType; magnitude := magnitude z |},
       Some (img, moveType, magnitude z))
  end.

(** [handleNavigate] from the [await] on; [current] is the picture the
    closure captured.  The boolean tells whether the failure alert was
    raised. *)
Definition handleNavigate_settled (current : SourceImage) (resp : Response)
    (z : t) : t * bool :=
  let result := match resp with Resolved r => truthy_result r | Rejected => None end in
  match result with
  | Some newImageSrc =>
      ({| currentImage := Some (newImage newImageSrc);
          undoStack := undoStack z ++ [Some current];
          redoStack := []; isLoading := false;
          loadingMessage := loadingMessage z; magnitude := magnitude z |},
       false)
  | None =>
      ({| currentImage := currentImage z; undoStack := undoStack z;
          redoStack := redoStack z; isLoading := false;
          loadingMessage := loadingMessage z; magnitude := magnitude z |},
       true)
  end.

Definition handleUndo (z : t) : t :=
  if (0 <? length (undoStack z))%nat
  then
    let newUndoStack := removelast (undoStack z) in
    let previousImage := last (undoStack z) None in
    {| currentImage := previousImage;
       undoStack := newUndoStack;
       redoStack := currentImage z :: redoStack z;
       isLoading := isLoading z; loadingMessage := loadingMessage z;
       magnitude := magnitude z |}
  else z.

Definition handleRedo (z : t) : t :=
  if (0 <? length (redoStack z))%nat
  then
    let newRedoStack := tl (redoStack z) in
    let nextImage := hd None (redoStack z) in
    {| currentImage := nextImage;
       undoStack := undoStack z ++ [currentImage z];
       redoStack := newRedoStack;
       isLoading := isLoading z; loadingMessage := loadingMessage z;
       magnitude := magnitude z |}
  else z.

(** [handleEdit]: the current picture goes to the editor tab. *)
Definition handleEdit (z : t) (sh : Shell) : Shell :=
  match currentImage z with
  | Some img =>
      {| inner := inner sh; activeTab := edit; imageForEditing := Some img;
         editHistoryItemToRestore := editHistoryItemToRestore sh |}
  | None => sh
  end.

(** The pictures of the tour in order: those to go back to, the one on
    show, those to go forward to. *)
Definition timeline (z : t) : list (option SourceImage) :=
  undoStack z ++ currentImage z :: redoStack z.

(** What the non-null assertions of [handleUndo] and [handleRedo] rely
    on: the stacks hold pictures only, and there is a current picture
    whenever a stack is not empty. *)
Definition sound (z : t) : Prop :=
  Forall (fun e => e <> None) (undoStack z) /\
  Forall (fun e => e <> None) (redoStack z) /\
  (undoStack z <> [] \/ redoStack z <> [] -> currentImage z <> None).

Inductive Event :=
| Upload (image : SourceImage)
| Remove
| Moved (current : SourceImage) (resp : Response)
| Undo
| Redo.

Definition step (z : t) (ev : Event) : t :=
  match ev with
  | Upload image => handleImageUpload image z
  | Remove => handleRemoveImage z
  | Moved current resp => fst (handleNavigate_settled current resp z)
  | Undo => handleUndo z
  | Redo => handleRedo z
  end.

End Tour.

(* ================================================================== *)
(** * Properties *)

(** ** Strings and the data-URL pattern *)

Section Matching.

Lemma strip_prefix_app (lit s : JsString) :
  strip_prefix lit (lit ++ s) = Some s.
Proof.
  induction lit as [|a lit IH]; simpl; [reflexivity|].
  now rewrite N.eqb_refl.
Qed.

Lemma strip_prefix_inv (lit : JsString) :
  forall s r, strip_prefix lit s = Some r -> s = lit ++ r.
Proof.
  induction lit as [|a lit IH]; simpl; intros s r H.
  - now inversion H.
  - destruct s as [|b s]; [discriminate|].
    destruct (N.eqb_spec a b) as [->|]; [|discriminate].
    f_equal. now apply IH.
Qed.

Lemma span_inv (p : char16 -> bool) :
  forall s run rest,
    span p s = (run, rest) ->
    s = run ++ rest /\ forallb p run = true /\
    match rest with [] => True | c :: _ => p c = false end.
Proof.
  induction s as [|c s IH]; simpl; intros run rest H.
  - inversion H; subst. repeat split.
  - destruct (p c) eqn:Hc.
    + destruct (span p s) as [run' rest'] eqn:Hs.
      inversion H; subst.
      destruct (IH _ _ eq_refl) as (-> & Hrun & Hrest).
      simpl. rewrite Hc. repeat split; assumption.
    + inversion H; subst. simpl. repeat split. assumption.
Qed.

Lemma span_stop (p : char16 -> bool) (run : JsString) (c : char16) (rest : JsString) :
  forallb p run = true -> p c = false ->
  span p (run ++ c :: rest) = (run, c :: rest).
Proof.
  intros Hrun Hc. induction run as [|a run IH]; simpl in *.
  - now rewrite Hc.
  - apply andb_prop in Hrun as [Ha Hrun]. rewrite Ha, (IH Hrun). reflexivity.
Qed.

Lemma falsy_nil (s : JsString) : falsy s = true <-> s = [].
Proof. destruct s; simpl; split; congruence. Qed.

Lemma falsy_cons (s : JsString) : falsy s = false <-> s <> [].
Proof. destruct s; simpl; split; congruence. Qed.

(** What a successful match looks like. *)
Lemma match_data_url_inv (s m1 m2 : JsString) :
  match_data_url s = Some (m1, m2) ->
  image_mime m1 /\ one_line m2 /\ s = js "data:" ++ m1 ++ js ";base64," ++ m2.
Proof.
  unfold match_data_url. intros H.
  destruct (strip_prefix (js "data:") s) as [r1|] eqn:H1; [|discriminate].
  destruct (strip_prefix (js "image/") r1) as [r2|] eqn:H2; [|discriminate].
  destruct (span is_lower r2) as [letters r3] eqn:H3.
  destruct (falsy letters) eqn:Hl; [discriminate|].
  destruct (strip_prefix (js ";base64,") r3) as [r4|] eqn:H4; [|discriminate].
  destruct (negb (falsy r4) && forallb dot r4) eqn:H5; [|discriminate].
  inversion H; subst m1 m2; clear H.
  apply andb_prop in H5 as [Hne Hdot].
  apply negb_true_iff, falsy_cons in Hne.
  apply falsy_cons in Hl.
  apply strip_prefix_inv in H1, H2, H4.
  apply span_inv in H3 as (H3 & Hlow & _).
  subst. repeat split.
  - exists letters. auto.
  - assumption.
  - assumption.
Qed.

(** Every string of the shape is matched, with the expected groups. *)
Lemma match_data_url_complete (letters payload : JsString) :
  letters <> [] -> forallb is_lower letters = true -> one_line payload ->
  match_data_url (js "data:" ++ (js "image/" ++ letters) ++ js ";base64," ++ payload)
  = Some (js "image/" ++ letters, payload).
Proof.
  intros Hne Hlow [Hp Hdot].
  unfold match_data_url.
  rewrite strip_prefix_app, <- app_assoc, strip_prefix_app.
  change (js ";base64," ++ payload)
    with (59%N :: (js "base64," ++ payload)).
  rewrite span_stop by (assumption || reflexivity).
  apply falsy_cons in Hne. rewrite Hne.
  change (59%N :: js "base64," ++ payload) with (js ";base64," ++ payload).
  rewrite strip_prefix_app.
  apply falsy_cons in Hp. rewrite Hp, Hdot. reflexivity.
Qed.

Lemma dataUrlToSourceImage_inv (s : JsString) (img : SourceImage) :
  dataUrlToSourceImage s = Some img ->
  image_mime (mimeType img) /\ one_line (base64 img) /\ s = toDataUrl img.
Proof.
  unfold dataUrlToSourceImage. intros H.
  destruct (match_data_url s) as [[m1 m2]|] eqn:Hm; [|discriminate].
  destruct (negb (falsy m1) && negb (falsy m2)); [|discriminate].
  inversion H; subst; clear H. simpl.
  now apply match_data_url_inv.
Qed.

Lemma dataUrlToSourceImage_complete (img : SourceImage) :
  image_mime (mimeType img) -> one_line (base64 img) ->
  dataUrlToSourceImage (toDataUrl img) = Some img.
Proof.
  destruct img as [payload mime]. cbn [mimeType base64].
  intros (letters & Hne & Hlow & ->) Hp.
  unfold dataUrlToSourceImage, toDataUrl. cbn [mimeType base64].
  rewrite match_data_url_complete by assumption.
  destruct Hp as [Hp _]. apply falsy_cons in Hp. rewrite Hp.
  reflexivity.
Qed.

Lemma split_no_sep (sep : char16) (s : JsString) :
  ~ In sep s -> split sep s = [s].
Proof.
  induction s as [|c s IH]; intros H; [reflexivity|].
  cbn [split]. destruct (N.eqb_spec c sep) as [->|Hc].
  - exfalso. apply H. now left.
  - rewrite IH; [reflexivity|]. intros Hin. apply H. now right.
Qed.

Lemma split_at_sep (sep : char16) (x y : JsString) :
  ~ In sep x -> split sep (x ++ sep :: y) = x :: split sep y.
Proof.
  induction x as [|c x IH]; intros H.
  - cbn [app]. cbn [split]. now rewrite N.eqb_refl.
  - cbn [app]. cbn [split]. destruct (N.eqb_spec c sep) as [->|Hc].
    + exfalso. apply H. now left.
    + rewrite IH; [reflexivity|]. intros Hin. apply H. now right.
Qed.

(** The payload of a data URL is what follows its only comma. *)
End Matching.

(** ** Compositing *)

Section Compositing.

Lemma div255_mul (k : Z) : div255 (255 * k) = k.
Proof.
  unfold div255. rewrite Z.mul_comm, Z.div_add_l by lia.
  change (127 / 255) with 0. lia.
Qed.

Lemma source_over_black (b : Pixel) : source_over black b = black.
Proof.
  unfold source_over, black. cbn [alpha red green blue].
  replace (255 - 255) with 0 by lia.
  rewrite !Z.mul_0_r. reflexivity.
Qed.

Lemma source_over_opaque (s b : Pixel) : opaque b -> opaque (source_over s b).
Proof.
  unfold opaque, source_over. cbn [alpha]. intros ->.
  rewrite div255_mul. lia.
Qed.

Lemma source_in_white (b : Pixel) : opaque b -> source_in white b = white.
Proof.
  unfold opaque, source_in, white. cbn [alpha red green blue]. intros ->.
  reflexivity.
Qed.

Lemma map_prefix_repeat {A} (f : A -> A) (a : A) (n : nat) :
  map_prefix n f (repeat a n) = repeat (f a) n.
Proof. induction n; simpl; congruence. Qed.

Lemma map_prefix_const {A} (Q : A -> Prop) (f : A -> A) (b : A) :
  (forall x, Q x -> f x = b) ->
  forall l, Forall Q l -> map_prefix (length l) f l = repeat b (length l).
Proof.
  intros Hf. induction 1 as [|x l Hx _ IH]; simpl; [reflexivity|].
  now rewrite (Hf x Hx), IH.
Qed.

Lemma overlay_length {A B} (f : A -> B -> B) :
  forall src dst, length (overlay f src dst) = length dst.
Proof.
  induction src as [|s src IH]; destruct dst as [|d dst]; simpl; auto.
Qed.

Lemma overlay_Forall {A B} (f : A -> B -> B) (Q : B -> Prop) :
  (forall s d, Q d -> Q (f s d)) ->
  forall src dst, Forall Q dst -> Forall Q (overlay f src dst).
Proof.
  intros Hf. induction src as [|s src IH]; intros dst Hd; [exact Hd|].
  destruct dst as [|d dst]; [constructor|].
  inversion Hd; subst. simpl. constructor; auto.
Qed.

(** Copying a raster over a surface of the same shape leaves exactly
    the raster. *)
Lemma overlay_copy_row {A} :
  forall (src dst : list A), length src = length dst ->
    overlay (fun s _ => s) src dst = src.
Proof.
  induction src as [|s src IH]; destruct dst as [|d dst]; simpl;
    intros H; try discriminate; [reflexivity|].
  f_equal. apply IH. lia.
Qed.

Lemma overlay_copy {A} (w : nat) :
  forall (src dst : list (list A)),
    length src = length dst ->
    Forall (fun r => length r = w) src -> Forall (fun r => length r = w) dst ->
    overlay (overlay (fun s _ => s)) src dst = src.
Proof.
  induction src as [|s src IH]; destruct dst as [|d dst]; simpl;
    intros H Hs Hd; try discriminate; [reflexivity|].
  inversion Hs; inversion Hd; subst.
  f_equal; [apply overlay_copy_row; congruence | apply IH; auto].
Qed.

Lemma Forall_repeat {A} (Q : A -> Prop) (a : A) (n : nat) :
  Q a -> Forall Q (repeat a n).
Proof. intros H. induction n; simpl; constructor; auto. Qed.

Lemma resize_fresh (w h : nat) (c : Canvas) :
  set_height h (set_width w c) = fresh w h.
Proof. reflexivity. Qed.

(** The steps of [maskCanvas] with the sizes resolved. *)
Lemma maskCanvas_steps (c : Canvas) :
  maskCanvas c
  = fillRect (canvas_width c) (canvas_height c)
      (set_fillStyle white
         (set_globalCompositeOperation SourceIn
            (drawImage (bitmap c)
               (set_globalCompositeOperation SourceOver
                  (fillRect (canvas_width c) (canvas_height c)
                     (set_fillStyle black
                        (fresh (canvas_width c) (canvas_height c)))))))).
Proof. reflexivity. Qed.

(** After the black fill and the source-over copy of the drawing
    layer every sample of the mask canvas is opaque, so the white
    source-in fill keeps every sample: the whole surface is white. *)
Lemma maskCanvas_bitmap (c : Canvas) :
  bitmap (maskCanvas c)
  = {| width := canvas_width c; height := canvas_height c;
       rows := repeat (repeat white (canvas_width c)) (canvas_height c) |}.
Proof.
  rewrite maskCanvas_steps.
  set (w := canvas_width c). set (h := canvas_height c).
  cbn [bitmap width height rows fillStyle globalCompositeOperation composite
       fillRect drawImage set_fillStyle set_globalCompositeOperation
       with_bitmap fresh blank].
  f_equal.
  rewrite !map_prefix_repeat.
  set (R := overlay _ _ _).
  assert (HR : Forall (fun r => length r = w /\ Forall opaque r) R).
  { apply overlay_Forall.
    - intros s d [Hl Ho]. split.
      + now rewrite overlay_length.
      + apply overlay_Forall; [apply source_over_opaque | exact Ho].
    - apply Forall_repeat. split.
      + apply repeat_length.
      + rewrite source_over_black. now apply Forall_repeat. }
  assert (HL : length R = h).
  { unfold R. now rewrite overlay_length, repeat_length. }
  assert (Hrow : forall r, length r = w /\ Forall opaque r ->
                 map_prefix w (source_in white) r = repeat white w).
  { intros r [Hl Ho]. rewrite <- Hl.
    apply (@map_prefix_const _ opaque); [apply source_in_white | exact Ho]. }
  rewrite <- HL.
  apply (@map_prefix_const _ (fun r => length r = w /\ Forall opaque r));
    [exact Hrow | exact HR].
Qed.

Lemma maskCanvas_well_formed (c : Canvas) : well_formed (bitmap (maskCanvas c)).
Proof.
  rewrite maskCanvas_bitmap. split; cbn [rows width height].
  - apply repeat_length.
  - apply Forall_repeat, repeat_length.
Qed.

Lemma nth_repeat_in {A} (a d : A) (n m : nat) :
  (n < m)%nat -> nth n (repeat a m) d = a.
Proof.
  revert n. induction m as [|m IH]; intros [|n] H; simpl; try lia; auto with arith.
Qed.

(** Sample by sample: the mask is white wherever one looks. *)
Lemma maskCanvas_getPixel (c : Canvas) (x y : nat) :
  (x < canvas_width c)%nat -> (y < canvas_height c)%nat ->
  getPixel (bitmap (maskCanvas c)) x y = white.
Proof.
  intros Hx Hy. rewrite maskCanvas_bitmap. unfold getPixel. cbn [rows].
  rewrite (nth_repeat_in _ _ Hy). now apply nth_repeat_in.
Qed.

End Compositing.

(** ** The drawing layer under the session's events *)

Section Session.

Variable P : Platform.

Lemma drawing_size_on_drawing (f : Canvas -> Canvas) (st : ImageEditor) :
  (forall c, canvas_width (f c) = canvas_width c /\
             canvas_height (f c) = canvas_height c) ->
  drawing_size (on_drawing f st) = drawing_size st.
Proof.
  intros Hf. unfold on_drawing, drawing_size.
  destruct (dom st) as [d|] eqn:Hd; [|now rewrite Hd].
  cbn [dom set_dom with_drawing sourceDrawingCanvas].
  destruct (Hf (sourceDrawingCanvas d)) as [-> ->]. reflexivity.
Qed.

(** No event of the session resizes the drawing layer. *)
Lemma step_drawing_size (st : ImageEditor) (ev : Event) :
  drawing_size (step P st ev) = drawing_size st.
Proof.
  destruct ev; cbn [step].
  - unfold startDrawing. rewrite drawing_size_on_drawing; [reflexivity|].
    intros c. split; reflexivity.
  - unfold draw. destruct (negb (isDrawing st)); [reflexivity|].
    apply drawing_size_on_drawing. intros c. split; reflexivity.
  - unfold stopDrawing, drawing_size. destruct (dom st) as [d|] eqn:Hd.
    + cbn. unfold closePath. destruct (path (sourceDrawingCanvas d)); reflexivity.
    + cbn. now rewrite Hd.
  - unfold stopDrawing, drawing_size. destruct (dom st) as [d|] eqn:Hd.
    + cbn. unfold closePath. destruct (path (sourceDrawingCanvas d)); reflexivity.
    + cbn. now rewrite Hd.
  - unfold handleUndo. destruct (length (drawingHistory st) =? 0)%nat; [reflexivity|].
    rewrite drawing_size_on_drawing; [reflexivity|].
    intros c. destruct (0 <? length (removelast (drawingHistory st)))%nat;
      split; reflexivity.
  - unfold clearMask.
    change (drawing_size (setDrawingHistory [] ?s)) with (drawing_size s).
    apply drawing_size_on_drawing. intros c. split; reflexivity.
  - unfold handleZoomSave, drawing_size. destruct (dom st) as [d|] eqn:Hd.
    + reflexivity.
    + cbn. now rewrite Hd.
  - reflexivity.
  - reflexivity.
Qed.

Lemma run_drawing_size (evs : list Event) :
  forall st, drawing_size (run P evs st) = drawing_size st.
Proof.
  unfold run. induction evs as [|ev evs IH]; intros st; simpl; [reflexivity|].
  now rewrite IH, step_drawing_size.
Qed.

(** When the picture arrives both canvases take its natural size. *)
Lemma imageEl_onload_drawing_size (imageEl : ImageData) (cw : number) (st : ImageEditor) :
  dom st <> None ->
  drawing_size (imageEl_onload imageEl cw st) = Some (width imageEl, height imageEl).
Proof.
  intros Hd. unfold imageEl_onload.
  destruct (dom st) as [d|]; [|congruence].
  reflexivity.
Qed.

Lemma drawImageOnCanvas_inv (st : ImageEditor) (onload : number -> ImageEditor -> ImageEditor) :
  drawImageOnCanvas P st = Some onload ->
  exists img imageEl,
    image st = Some img /\ decode P (toDataUrl img) = Some imageEl /\
    onload = imageEl_onload imageEl.
Proof.
  unfold drawImageOnCanvas. intros H.
  destruct (image st) as [img|]; [|discriminate].
  destruct (dom st); [|discriminate].
  destruct (decode P (toDataUrl img)) as [imageEl|] eqn:He; [|discriminate].
  inversion H. exists img, imageEl. auto.
Qed.

(** Whatever was drawn after the picture loaded, every sample of the
    mask inside the picture is white. *)
Lemma mask_white_in_session (imageEl : ImageData) (cw : number) (st : ImageEditor)
    (evs : list Event) (x y : nat) :
  dom st <> None ->
  (x < width imageEl)%nat -> (y < height imageEl)%nat ->
  exists d,
    dom (run P evs (imageEl_onload imageEl cw st)) = Some d /\
    getPixel (bitmap (maskCanvas (sourceDrawingCanvas d))) x y = white.
Proof.
  intros Hd Hx Hy.
  pose proof (run_drawing_size evs (imageEl_onload imageEl cw st)) as Hs.
  rewrite imageEl_onload_drawing_size in Hs by assumption.
  unfold drawing_size in Hs.
  destruct (dom (run P evs (imageEl_onload imageEl cw st))) as [d|];
    [|discriminate].
  inversion Hs as [[Hw Hh]].
  exists d. split; [reflexivity|].
  apply maskCanvas_getPixel; congruence.
Qed.

(** The two [return null] of [generateMaskImage]. *)
Lemma generateMaskImage_None (st : ImageEditor) :
  generateMaskImage P st = None <->
  dom st = None \/
  exists d,
    dom st = Some d /\
    getContext P (canvas_width (sourceDrawingCanvas d))
      (canvas_height (sourceDrawingCanvas d)) = false.
Proof.
  unfold generateMaskImage. destruct (dom st) as [d|]; [|tauto].
  destruct (getContext P _ _) eqn:Hc; cbn zeta; split.
  - discriminate.
  - intros [H | (d' & H & Hc')]; [discriminate|]. congruence.
  - intros _. right. exists d. auto.
  - reflexivity.
Qed.

Lemma generateMaskImage_Some (st : ImageEditor) (d : Dom) :
  dom st = Some d ->
  getContext P (canvas_width (sourceDrawingCanvas d))
    (canvas_height (sourceDrawingCanvas d)) = true ->
  generateMaskImage P st
  = Some {| base64 :=
              nth 1 (split comma
                       (toDataURL P (bitmap (maskCanvas (sourceDrawingCanvas d))))) [];
            mimeType := js "image/png" |}.
Proof.
  intros Hd Hc. unfold generateMaskImage. rewrite Hd. cbn zeta. now rewrite Hc.
Qed.

Lemma generateMaskImage_inv (st : ImageEditor) (mask : SourceImage) :
  generateMaskImage P st = Some mask ->
  exists d,
    dom st = Some d /\
    getContext P (canvas_width (sourceDrawingCanvas d))
      (canvas_height (sourceDrawingCanvas d)) = true /\
    mask = {| base64 :=
                nth 1 (split comma
                         (toDataURL P (bitmap (maskCanvas (sourceDrawingCanvas d))))) [];
              mimeType := js "image/png" |}.
Proof.
  unfold generateMaskImage. destruct (dom st) as [d|]; [|discriminate].
  destruct (getContext P _ _) eqn:Hc; cbn zeta; [|discriminate].
  intros H. exists d. split; [reflexivity|]. split; [exact Hc|]. congruence.
Qed.

End Session.

(** ** Mask compositor *)

(** C1.  Evaluated on the session [Bench.painted] (a 4 by 4 picture with
    one stroke through samples (1,1) and (2,1)): the corner sample
    (0,0) of the drawing layer was never touched, the sample (1,1) was,
    and the mask canvas that [generateMaskImage] encodes holds opaque
    white at both.  The untouched sample does not come out black: the
    black fill makes every sample of the mask canvas opaque before the
    source-in fill, which then keeps white everywhere. *)
Theorem generateMaskImage_untouched_sample_white :
  exists d,
    dom Bench.painted = Some d /\
    untouched (getPixel (bitmap (sourceDrawingCanvas d)) 0 0) /\
    getPixel (bitmap (sourceDrawingCanvas d)) 1 1 = highlight /\
    getPixel (bitmap (maskCanvas (sourceDrawingCanvas d))) 1 1 = white /\
    getPixel (bitmap (maskCanvas (sourceDrawingCanvas d))) 0 0 = white /\
    getPixel (bitmap (maskCanvas (sourceDrawingCanvas d))) 0 0 <> black.
Proof.
  eexists. split; [reflexivity|].
  repeat split; try reflexivity.
  vm_compute. discriminate.
Qed.

(** C2.  Mask binariness: whatever the drawing layer holds, and whatever
    alpha its strokes were painted with, every sample of the raster that
    [generateMaskImage] encodes is pure opaque black or pure opaque
    white, and the raster is a full rectangle; the mask returned is the
    payload of that raster's encoding.  (Without a mounted drawing
    layer, or without a 2D context for the mask canvas, the function
    returns null.) *)
Theorem generateMaskImage_binary (P : Platform) (st : ImageEditor) :
  match dom st with
  | None => generateMaskImage P st = None
  | Some d =>
      let m := bitmap (maskCanvas (sourceDrawingCanvas d)) in
      generateMaskImage P st
      = (if getContext P (canvas_width (sourceDrawingCanvas d))
              (canvas_height (sourceDrawingCanvas d))
         then Some {| base64 := nth 1 (split comma (toDataURL P m)) [];
                      mimeType := js "image/png" |}
         else None) /\
      well_formed m /\
      Forall (Forall binary) (rows m)
  end.
Proof.
  unfold generateMaskImage. destruct (dom st) as [d|]; [|reflexivity].
  cbn zeta. split; [reflexivity|]. split; [apply maskCanvas_well_formed|].
  rewrite maskCanvas_bitmap. cbn [rows].
  apply Forall_repeat, Forall_repeat. now right.
Qed.

(** C7.  Dimensional correspondence: once [drawImageOnCanvas] has
    started loading the source image and its [onload] has run on a
    mounted editor, then after any sequence of drawing events
    [generateMaskImage] returns a mask (the mask canvas being granted
    its context), and that mask is the PNG of a full raster with the
    picture's natural width and height: its data URL is the encoding of
    that raster, and decoded again it has the natural size.  The
    container width [cw], which decides the display size, plays no
    part. *)
Theorem mask_has_natural_size (P : Platform) (st : ImageEditor)
    (onload : number -> ImageEditor -> ImageEditor) (img : SourceImage)
    (imageEl : ImageData) (cw : number) (later : ImageEditor) (evs : list Event) :
  image st = Some img ->
  decode P (toDataUrl img) = Some imageEl ->
  drawImageOnCanvas P st = Some onload ->
  dom later <> None ->
  getContext P (width imageEl) (height imageEl) = true ->
  png_codec_keeps_size P (width imageEl) (height imageEl) ->
  exists d mask back,
    dom (run P evs (onload cw later)) = Some d /\
    same_size (bitmap (maskCanvas (sourceDrawingCanvas d))) imageEl /\
    well_formed (bitmap (maskCanvas (sourceDrawingCanvas d))) /\
    generateMaskImage P (run P evs (onload cw later)) = Some mask /\
    toDataUrl mask = toDataURL P (bitmap (maskCanvas (sourceDrawingCanvas d))) /\
    decode P (toDataUrl mask) = Some back /\
    width back = width imageEl /\
    height back = height imageEl.
Proof.
  intros Hi Hdec Hdraw Hlater Hctx Hcodec.
  apply drawImageOnCanvas_inv in Hdraw as (img' & el' & Hi' & Hdec' & ->).
  assert (el' = imageEl) as -> by congruence.
  pose proof (run_drawing_size P evs (imageEl_onload imageEl cw later)) as Hs.
  rewrite imageEl_onload_drawing_size in Hs by assumption.
  unfold drawing_size in Hs.
  destruct (dom (run P evs (imageEl_onload imageEl cw later))) as [d|] eqn:Hd;
    [|discriminate].
  inversion Hs as [[Hw Hh]].
  assert (Hsize : same_size (bitmap (maskCanvas (sourceDrawingCanvas d))) imageEl).
  { rewrite maskCanvas_bitmap. split; assumption. }
  pose proof (maskCanvas_well_formed (sourceDrawingCanvas d)) as Hwf.
  destruct (Hcodec _ Hwf (proj1 Hsize) (proj2 Hsize))
    as (payload & back & Henc & Hcomma & Hback & Hbw & Hbh).
  assert (Hmask : generateMaskImage P (run P evs (imageEl_onload imageEl cw later))
                  = Some {| base64 := payload; mimeType := js "image/png" |}).
  { rewrite (generateMaskImage_Some P _ Hd) by (rewrite Hw, Hh; exact Hctx).
    rewrite Henc.
    change (js "data:image/png;base64," ++ payload)
      with (js "data:image/png;base64" ++ comma :: payload).
    rewrite split_at_sep by (vm_compute; intuition discriminate).
    rewrite split_no_sep by exact Hcomma. reflexivity. }
  assert (Hurl : toDataUrl {| base64 := payload; mimeType := js "image/png" |}
                 = toDataURL P (bitmap (maskCanvas (sourceDrawingCanvas d)))).
  { rewrite Henc. reflexivity. }
  exists d, {| base64 := payload; mimeType := js "image/png" |}, back.
  split; [reflexivity|]. split; [exact Hsize|]. split; [exact Hwf|].
  split; [exact Hmask|]. split; [exact Hurl|].
  rewrite Hurl. split; [exact Hback|]. split; congruence.
Qed.

Lemma mask_has_natural_size_witness :
  exists d mask back,
    dom (run Bench.platform Bench.one_stroke
           (imageEl_onload Bench.picture 500 (setImage (Some Bench.png) initial)))
    = Some d /\
    same_size (bitmap (maskCanvas (sourceDrawingCanvas d))) Bench.picture /\
    well_formed (bitmap (maskCanvas (sourceDrawingCanvas d))) /\
    generateMaskImage Bench.platform
      (run Bench.platform Bench.one_stroke
         (imageEl_onload Bench.picture 500 (setImage (Some Bench.png) initial)))
    = Some mask /\
    toDataUrl mask
    = toDataURL Bench.platform (bitmap (maskCanvas (sourceDrawingCanvas d))) /\
    decode Bench.platform (toDataUrl mask) = Some back /\
    width back = width Bench.picture /\
    height back = height Bench.picture.
Proof.
  apply (@mask_has_natural_size Bench.platform
           (setImage (Some Bench.png) initial)
           (imageEl_onload Bench.picture) Bench.png Bench.picture 500
           (setImage (Some Bench.png) initial) Bench.one_stroke).
  - reflexivity.
  - reflexivity.
  - reflexivity.
  - simpl. discriminate.
  - reflexivity.
  - intros b _ Hw Hh. exists (js "iVBORw0KGgo="), Bench.picture.
    split; [reflexivity|]. split; [|split; [reflexivity|split; reflexivity]].
    vm_compute. intuition discriminate.
Defined.

(** ** Undo on the drawing history *)

Section Undo.

Lemma clearRect_blank (c : Canvas) :
  well_formed (bitmap c) ->
  bitmap (clearRect (canvas_width c) (canvas_height c) c)
  = blank (canvas_width c) (canvas_height c).
Proof.
  intros [Hh Hw].
  unfold clearRect, with_bitmap, blank, canvas_width, canvas_height.
  cbn [bitmap width height rows]. f_equal.
  rewrite <- Hh.
  apply (@map_prefix_const _ (fun r => length r = width (bitmap c)));
    [|exact Hw].
  intros r Hr. rewrite <- Hr.
  apply (@map_prefix_const _ (fun _ => True)); [reflexivity|].
  apply Forall_forall. trivial.
Qed.

Lemma blank_well_formed (w h : nat) : well_formed (blank w h).
Proof.
  split; cbn [blank rows width height].
  - apply repeat_length.
  - apply Forall_repeat, repeat_length.
Qed.

Lemma putImageData_exact (s : ImageData) (c : Canvas) :
  well_formed s -> well_formed (bitmap c) -> same_size s (bitmap c) ->
  bitmap (putImageData s c) = s.
Proof.
  intros [Hsh Hsw] [Hch Hcw] [Hw Hh].
  unfold putImageData, with_bitmap. cbn [bitmap].
  rewrite (@overlay_copy _ (width s)); [| congruence | exact Hsw | now rewrite Hw].
  rewrite <- Hw, <- Hh. now destruct s.
Qed.

Lemma last_default {A} (l : list A) (d d' : A) :
  l <> [] -> last l d = last l d'.
Proof.
  induction l as [|a [|b l] IH]; intros H; [congruence | reflexivity |].
  change (last (b :: l) d = last (b :: l) d'). apply IH. discriminate.
Qed.

Lemma Forall_last {A} (Q : A -> Prop) (l : list A) (d : A) :
  l <> [] -> Forall Q l -> Q (last l d).
Proof.
  intros Hne HQ. rewrite (app_removelast_last d Hne) in HQ.
  apply Forall_app in HQ as [_ HQ]. now inversion HQ.
Qed.

Lemma last_or_default {A} (Q : A -> Prop) (l : list A) (d : A) :
  Q d -> Forall Q l -> Q (last l d).
Proof.
  intros Hd HQ. destruct l as [|a l]; [exact Hd|].
  apply Forall_last; [discriminate | exact HQ].
Qed.

Lemma Forall_removelast {A} (Q : A -> Prop) (l : list A) :
  Forall Q l -> Forall Q (removelast l).
Proof.
  destruct l as [|a l]; [trivial|]. intros HQ.
  rewrite (app_removelast_last a (l := a :: l)) in HQ by discriminate.
  now apply Forall_app in HQ as [HQ _].
Qed.

(** What the canvas part of [handleUndo] leaves on the layer. *)
Lemma undo_repaint (c : Canvas) (newHistory : list ImageData) :
  well_formed (bitmap c) ->
  Forall (fun s => well_formed s /\ same_size s (bitmap c)) newHistory ->
  bitmap (if (0 <? length newHistory)%nat
          then putImageData (last newHistory (blank 0 0))
                 (clearRect (canvas_width c) (canvas_height c) c)
          else clearRect (canvas_width c) (canvas_height c) c)
  = last newHistory (blank (canvas_width c) (canvas_height c)).
Proof.
  intros Hc Hfit.
  destruct newHistory as [|s l] eqn:E.
  - cbn [length Nat.ltb Nat.leb last]. now apply clearRect_blank.
  - rewrite <- E in *.
    assert (Hne : newHistory <> []) by (subst; discriminate).
    replace (0 <? length newHistory)%nat with true
      by (subst; reflexivity).
    destruct (Forall_last (blank 0 0) Hne Hfit) as [Hs [Hw Hh]].
    rewrite (last_default (blank 0 0)
               (blank (canvas_width c) (canvas_height c)) Hne) in *.
    apply putImageData_exact; [assumption | |].
    + rewrite clearRect_blank by assumption. apply blank_well_formed.
    + rewrite clearRect_blank by assumption. split; assumption.
Qed.

Lemma handleUndo_nonempty (st : ImageEditor) :
  drawingHistory st <> [] ->
  handleUndo st
  = on_drawing
      (fun c =>
         if (0 <? length (removelast (drawingHistory st)))%nat
         then putImageData (last (removelast (drawingHistory st)) (blank 0 0))
                (clearRect (canvas_width c) (canvas_height c) c)
         else clearRect (canvas_width c) (canvas_height c) c)
      (setDrawingHistory (removelast (drawingHistory st)) st).
Proof.
  intros Hne. unfold handleUndo.
  destruct (length (drawingHistory st) =? 0)%nat eqn:Hlen; [|reflexivity].
  apply Nat.eqb_eq, length_zero_iff_nil in Hlen. contradiction.
Qed.

Lemma handleUndo_history (st : ImageEditor) :
  drawingHistory st <> [] ->
  drawingHistory (handleUndo st) = removelast (drawingHistory st).
Proof.
  intros Hne. rewrite (@handleUndo_nonempty st Hne).
  unfold on_drawing. cbn [dom setDrawingHistory].
  destruct (dom st); reflexivity.
Qed.

(** After an undo the layer and the stack agree again. *)
Lemma handleUndo_repaints (st : ImageEditor) :
  drawingHistory st <> [] ->
  snapshots_fit st ->
  snapshots_fit (handleUndo st) /\ layer_matches_stack (handleUndo st).
Proof.
  intros Hne. unfold snapshots_fit, layer_matches_stack.
  rewrite (@handleUndo_history st Hne), (@handleUndo_nonempty st Hne).
  set (newHistory := removelast (drawingHistory st)).
  unfold on_drawing. cbn [dom setDrawingHistory].
  destruct (dom st) as [d|] eqn:Hd;
    [|cbn [dom setDrawingHistory]; rewrite Hd; split; exact I].
  cbn [dom set_dom with_drawing sourceDrawingCanvas]. cbn zeta.
  intros [Hc Hfit].
  assert (Hfit' : Forall (fun s => well_formed s /\
                                   same_size s (bitmap (sourceDrawingCanvas d)))
                    newHistory)
    by now apply Forall_removelast.
  pose proof (@undo_repaint (sourceDrawingCanvas d) newHistory Hc Hfit') as Hb.
  set (c' := if (0 <? length newHistory)%nat then _ else _) in *.
  assert (Hw : canvas_width c' = canvas_width (sourceDrawingCanvas d))
    by (unfold c'; destruct (0 <? length newHistory)%nat; reflexivity).
  assert (Hht : canvas_height c' = canvas_height (sourceDrawingCanvas d))
    by (unfold c'; destruct (0 <? length newHistory)%nat; reflexivity).
  rewrite Hw, Hht. split; [|exact Hb].
  assert (Hwf : well_formed (bitmap c')).
  { rewrite Hb. apply last_or_default; [apply blank_well_formed|].
    eapply Forall_impl; [|exact Hfit']. now intros s [Hs _]. }
  split; [exact Hwf|].
  eapply Forall_impl; [|exact Hfit'].
  intros s [Hs [Hsw Hsh]]. split; [exact Hs|].
  unfold same_size. fold (canvas_width c') (canvas_height c').
  rewrite Hw, Hht. split; assumption.
Qed.

End Undo.

(** ** Snapshots stay full captures of the layer *)

Section Captures.

Variable P : Platform.

Lemma overlay_well_formed {A} (f : A -> Pixel -> Pixel) (src : list (list A))
    (img : ImageData) :
  well_formed img ->
  well_formed {| width := width img; height := height img;
                 rows := overlay (overlay f) src (rows img) |}.
Proof.
  intros [Hh Hw]. split; cbn [rows width height].
  - now rewrite overlay_length.
  - apply overlay_Forall; [|exact Hw].
    intros s d Hd. now rewrite overlay_length.
Qed.

Lemma bitmap_closePath (c : Canvas) : bitmap (closePath c) = bitmap c.
Proof. unfold closePath. now destruct (path c). Qed.

Lemma snapshots_fit_on_drawing (f : Canvas -> Canvas) (st : ImageEditor) :
  (forall c, well_formed (bitmap c) ->
             well_formed (bitmap (f c)) /\ same_size (bitmap (f c)) (bitmap c)) ->
  snapshots_fit st -> snapshots_fit (on_drawing f st).
Proof.
  intros Hf. unfold snapshots_fit, on_drawing.
  destruct (dom st) as [d|] eqn:Hd; [|now rewrite Hd].
  cbn [dom set_dom drawingHistory with_drawing sourceDrawingCanvas].
  intros [Hc Hfit]. destruct (Hf _ Hc) as (Hwf & Hw & Hh).
  split; [exact Hwf|].
  eapply Forall_impl; [|exact Hfit].
  intros s [Hs [Hsw Hsh]]. split; [exact Hs|]. split; congruence.
Qed.

Lemma step_snapshots_fit (st : ImageEditor) (ev : Event) :
  snapshots_fit st -> admissible st ev -> snapshots_fit (step P st ev).
Proof.
  intros Hfit Hadm. destruct ev; cbn [step].
  - unfold startDrawing. apply snapshots_fit_on_drawing; [|exact Hfit].
    intros c Hc. split; [exact Hc | split; reflexivity].
  - unfold draw. destruct (negb (isDrawing st)); [exact Hfit|].
    apply snapshots_fit_on_drawing; [|exact Hfit].
    intros c Hc. split; [|split; reflexivity].
    apply (overlay_well_formed _ _ Hc).
  - unfold stopDrawing, snapshots_fit in *.
    destruct (dom st) as [d|] eqn:Hd;
      [|cbn [dom setIsDrawing]; now rewrite Hd].
    cbn [dom drawingHistory setIsDrawing setDrawingHistory set_dom
         with_drawing sourceDrawingCanvas getImageData].
    unfold getImageData. rewrite !bitmap_closePath. destruct Hfit as [Hc Hfit].
    split; [exact Hc|]. apply Forall_app. split; [exact Hfit|].
    constructor; [|constructor]. split; [exact Hc | split; reflexivity].
  - unfold stopDrawing, snapshots_fit in *.
    destruct (dom st) as [d|] eqn:Hd;
      [|cbn [dom setIsDrawing]; now rewrite Hd].
    cbn [dom drawingHistory setIsDrawing setDrawingHistory set_dom
         with_drawing sourceDrawingCanvas getImageData].
    unfold getImageData. rewrite !bitmap_closePath. destruct Hfit as [Hc Hfit].
    split; [exact Hc|]. apply Forall_app. split; [exact Hfit|].
    constructor; [|constructor]. split; [exact Hc | split; reflexivity].
  - destruct (drawingHistory st) as [|s l] eqn:E.
    + unfold handleUndo. now rewrite E.
    + apply handleUndo_repaints; [rewrite E; discriminate | exact Hfit].
  - unfold clearMask, snapshots_fit, on_drawing in *.
    destruct (dom st) as [d|] eqn:Hd;
      [|cbn [dom setDrawingHistory]; now rewrite Hd].
    cbn [dom drawingHistory setDrawingHistory set_dom with_drawing
         sourceDrawingCanvas].
    destruct Hfit as [Hc _]. split; [|constructor].
    rewrite clearRect_blank by exact Hc. apply blank_well_formed.
  - unfold handleZoomSave, snapshots_fit, admissible in *.
    destruct (dom st) as [d|] eqn:Hd;
      [|cbn [dom setIsZoomed]; now rewrite Hd].
    cbn [dom drawingHistory setIsZoomed setDrawingHistory set_dom
         with_drawing sourceDrawingCanvas].
    destruct Hfit as [Hc Hfit]. destruct Hadm as [Hz [Hzw Hzh]].
    assert (Hput : bitmap (putImageData finalImageData
                             (clearRect (canvas_width (sourceDrawingCanvas d))
                                (canvas_height (sourceDrawingCanvas d))
                                (sourceDrawingCanvas d)))
                   = finalImageData).
    { apply putImageData_exact; [exact Hz | |];
        rewrite clearRect_blank by exact Hc.
      - apply blank_well_formed.
      - split; assumption. }
    rewrite Hput. split; [exact Hz|].
    apply Forall_app. split.
    + eapply Forall_impl; [|exact Hfit].
      intros s [Hs [Hsw Hsh]]. split; [exact Hs|]. split; congruence.
    + constructor; [|constructor]. split; [exact Hz | split; reflexivity].
  - exact Hfit.
  - exact Hfit.
Qed.

Lemma run_snapshots_fit (evs : list Event) :
  forall st, snapshots_fit st -> admissible_run P st evs ->
             snapshots_fit (run P evs st).
Proof.
  unfold run. induction evs as [|ev evs IH]; intros st Hfit Hadm; [exact Hfit|].
  destruct Hadm as [Hev Hrest]. cbn [fold_left].
  apply IH; [now apply step_snapshots_fit | exact Hrest].
Qed.

(** Loading a picture starts the session with a blank layer and an
    empty stack. *)
Lemma imageEl_onload_snapshots_fit (imageEl : ImageData) (cw : number) (st : ImageEditor) :
  snapshots_fit st -> snapshots_fit (imageEl_onload imageEl cw st).
Proof.
  intros Hfit. unfold imageEl_onload.
  destruct (dom st) as [d|] eqn:Hd; [|exact Hfit].
  unfold clearMask, snapshots_fit, on_drawing.
  cbn [dom drawingHistory setDrawingHistory set_dom with_drawing
       sourceDrawingCanvas].
  split; [|constructor].
  rewrite resize_fresh.
  rewrite (@clearRect_blank (fresh (width imageEl) (height imageEl)))
    by apply blank_well_formed.
  apply blank_well_formed.
Qed.


(** In a session that started with a loaded picture, an undo on a
    non-empty stack always brings the layer back to the last snapshot. *)
Lemma undo_in_session (imageEl : ImageData) (cw : number) (st : ImageEditor)
    (evs : list Event) :
  snapshots_fit st ->
  admissible_run P (imageEl_onload imageEl cw st) evs ->
  drawingHistory (run P evs (imageEl_onload imageEl cw st)) <> [] ->
  layer_matches_stack (handleUndo (run P evs (imageEl_onload imageEl cw st))).
Proof.
  intros Hfit Hadm Hne.
  apply handleUndo_repaints; [exact Hne|].
  apply run_snapshots_fit; [|exact Hadm].
  now apply imageEl_onload_snapshots_fit.
Qed.

End Captures.




(** ** Submitting an edit *)

Section Submit.

Variable P : Platform.

Lemma handleGenerate_sent (st st' : ImageEditor) (r : EditRequest) :
  handleGenerate P st = (st', Sent r) ->
  st' = setResultImage None (setIsLoading true st) /\
  image st = Some (req_image r) /\
  req_prompt r = prompt st /\ prompt st <> [] /\
  req_reference r = referenceImage st /\
  generateMaskImage P st = Some (req_mask r).
Proof.
  unfold handleGenerate. intros H.
  destruct (image st) as [img|]; [|discriminate].
  destruct (falsy (prompt st)) eqn:Hp; [discriminate|].
  destruct (generateMaskImage P st) as [mask|]; [|discriminate].
  inversion H; subst; clear H. cbn [req_image req_prompt req_reference req_mask].
  apply falsy_cons in Hp. auto 10.
Qed.

Lemma handleGenerate_settled_failure (r : EditRequest) (resp : Response)
    (st : ImageEditor) :
  failure resp ->
  handleGenerate_settled r resp st
  = (setIsLoading false st, [ConsoleError; Alerted AlertEditFailed]).
Proof.
  unfold handleGenerate_settled, failure.
  destruct resp as [result|]; [|reflexivity].
  now intros ->.
Qed.

Lemma deliver_no_completion (now : Z) (stamp : JsString) (h : list Item.t) :
  deliver now stamp [ConsoleError; Alerted AlertEditFailed] h = h.
Proof. reflexivity. Qed.

End Submit.

(** C3.  A failed external call (rejection, [null] or an empty string):
    no history entry is delivered to the application; the source image,
    the drawing stack, the drawing layer, the prompt, the reference
    image and the brush are exactly those of before the submission; the
    loading flag is back to false and only the failure message is
    raised.  The one slot that is not restored is the result display,
    which the submission cleared on its way out. *)
Theorem failed_submit_keeps_inputs (P : Platform) (st sent : ImageEditor)
    (r : EditRequest) (resp : Response) (now : Z) (stamp : JsString)
    (h : list Item.t) :
  handleGenerate P st = (sent, Sent r) ->
  failure resp ->
  let (after, effs) := handleGenerate_settled r resp sent in
  deliver now stamp effs h = h /\
  effs = [ConsoleError; Alerted AlertEditFailed] /\
  image after = image st /\
  drawingHistory after = drawingHistory st /\
  dom after = dom st /\
  prompt after = prompt st /\
  referenceImage after = referenceImage st /\
  brushSize after = brushSize st /\
  isLoading after = false /\
  resultImage after = None /\
  after = setIsLoading false (setResultImage None st).
Proof.
  intros Hs Hf.
  apply handleGenerate_sent in Hs as (-> & _).
  rewrite handleGenerate_settled_failure by assumption.
  repeat split.
Qed.

Lemma failed_submit_keeps_inputs_witness :
  let (after, effs) :=
    handleGenerate_settled
      {| req_image := Bench.png;
         req_mask := {| base64 := js "iVBORw0KGgo="; mimeType := js "image/png" |};
         req_prompt := js "add a pool"; req_reference := None |}
      Rejected
      (setResultImage None (setIsLoading true Bench.ready)) in
  deliver 1700000000000 (js "09:41") effs [] = [] /\
  effs = [ConsoleError; Alerted AlertEditFailed] /\
  image after = image Bench.ready /\
  drawingHistory after = drawingHistory Bench.ready /\
  dom after = dom Bench.ready /\
  prompt after = prompt Bench.ready /\
  referenceImage after = referenceImage Bench.ready /\
  brushSize after = brushSize Bench.ready /\
  isLoading after = false /\
  resultImage after = None /\
  after = setIsLoading false (setResultImage None Bench.ready).
Proof.
  apply (@failed_submit_keeps_inputs Bench.platform Bench.ready
           (setResultImage None (setIsLoading true Bench.ready))
           {| req_image := Bench.png;
              req_mask := {| base64 := js "iVBORw0KGgo="; mimeType := js "image/png" |};
              req_prompt := js "add a pool"; req_reference := None |}
           Rejected 1700000000000 (js "09:41") []).
  - reflexivity.
  - exact I.
Defined.

(** C3, as stated, fails: a session that shows an earlier result and
    whose edit is rejected does not come back to the state it had
    before the submission. *)
Lemma failed_submit_loses_result :
  ~ (forall (P : Platform) (st sent : ImageEditor) (r : EditRequest)
       (resp : Response),
       isLoading st = false ->
       handleGenerate P st = (sent, Sent r) ->
       failure resp ->
       fst (handleGenerate_settled r resp sent) = st).
Proof.
  intros H.
  specialize (H Bench.platform Bench.ready
                (fst (handleGenerate Bench.platform Bench.ready))
                {| req_image := Bench.png;
                   req_mask := {| base64 := js "iVBORw0KGgo=";
                                  mimeType := js "image/png" |};
                   req_prompt := js "add a pool"; req_reference := None |}
                Rejected eq_refl eq_refl I).
  apply (f_equal resultImage) in H. vm_compute in H. discriminate.
Qed.

(** C4.  Preconditions of a submission.  Without a source image, or with
    an empty prompt, [handleGenerate] stops at the first alert; with
    both present but no mask, it stops at the mask alert.  Either way
    nothing is sent, and neither the session nor the edit history
    changes.  Mask production returns null in two cases: the drawing
    surface is not mounted, or the mask canvas is refused its 2D
    context. *)
Theorem handleGenerate_preconditions (P : Platform) (a : App) :
  (image (editor a) = None \/ prompt (editor a) = [] ->
   app_generate P a = (a, Blocked AlertMissingInput)) /\
  (image (editor a) <> None -> prompt (editor a) <> [] ->
   generateMaskImage P (editor a) = None ->
   app_generate P a = (a, Blocked AlertMaskFailed)) /\
  (generateMaskImage P (editor a) = None <->
   dom (editor a) = None \/
   exists d,
     dom (editor a) = Some d /\
     getContext P (canvas_width (sourceDrawingCanvas d))
       (canvas_height (sourceDrawingCanvas d)) = false).
Proof.
  destruct a as [st h]. cbn [editor editHistory].
  unfold app_generate, handleGenerate. cbn [editor editHistory].
  split; [|split].
  - intros [Hi | Hp].
    + now rewrite Hi.
    + rewrite Hp. now destruct (image st).
  - intros Hi Hp Hm.
    destruct (image st); [|congruence].
    apply falsy_cons in Hp. now rewrite Hp, Hm.
  - apply generateMaskImage_None.
Qed.

(** Nothing typed into an empty editor but a prompt: the first alert.
    The session [Bench.ready] (picture loaded, a stroke drawn, a prompt
    typed) on a platform that has no context left for the mask canvas:
    the mask alert. *)
Lemma handleGenerate_preconditions_witness :
  app_generate Bench.platform
    {| editor := setPrompt (js "add a pool") initial; editHistory := [] |}
  = ({| editor := setPrompt (js "add a pool") initial; editHistory := [] |},
     Blocked AlertMissingInput) /\
  app_generate Bench.exhausted {| editor := Bench.ready; editHistory := [] |}
  = ({| editor := Bench.ready; editHistory := [] |}, Blocked AlertMaskFailed).
Proof.
  split.
  - apply (proj1 (handleGenerate_preconditions Bench.platform
                    {| editor := setPrompt (js "add a pool") initial;
                       editHistory := [] |})).
    left. reflexivity.
  - apply (proj1 (proj2 (handleGenerate_preconditions Bench.exhausted
                           {| editor := Bench.ready; editHistory := [] |}))).
    + simpl. discriminate.
    + simpl. discriminate.
    + reflexivity.
Defined.

(** ** The persisted edit history *)

Section History.

Variable P : Platform.

Lemma app_step_history (a : App) (ev : AppEvent) :
  editHistory (app_step P a ev) = rev (completions [ev]) ++ editHistory a.
Proof.
  destruct ev as [e | r [[[|c url]|]|] now stamp]; reflexivity.
Qed.

Lemma completions_cons (ev : AppEvent) (evs : list AppEvent) :
  completions (ev :: evs) = completions [ev] ++ completions evs.
Proof.
  destruct ev as [e | r [[[|c url]|]|] now stamp]; reflexivity.
Qed.

Lemma app_run_history (evs : list AppEvent) :
  forall a, editHistory (app_run P evs a) = rev (completions evs) ++ editHistory a.
Proof.
  unfold app_run. induction evs as [|ev evs IH]; intros a; [reflexivity|].
  cbn [fold_left]. rewrite IH, app_step_history.
  rewrite (completions_cons ev evs), rev_app_distr, <- app_assoc.
  reflexivity.
Qed.

Lemma StronglySorted_snoc {A} (R : A -> A -> Prop) (l : list A) (a : A) :
  StronglySorted R l -> Forall (fun x => R x a) l -> StronglySorted R (l ++ [a]).
Proof.
  induction 1 as [|x l Hl IH Hx]; intros Ha; simpl.
  - repeat constructor.
  - inversion Ha; subst. constructor; [auto|].
    apply Forall_app. split; [exact Hx | repeat constructor; assumption].
Qed.

(** A clock that does not run backwards gives identifiers in
    decreasing order down the newest-first list. *)
Lemma rev_sorted (l : list Z) :
  Sorted Z.le l -> StronglySorted Z.ge (rev l).
Proof.
  intros H. apply Sorted_StronglySorted in H; [|exact Z.le_trans].
  induction H as [|x l Hl IH Hx]; simpl; [constructor|].
  apply StronglySorted_snoc; [exact IH|].
  apply Forall_rev. eapply Forall_impl; [|exact Hx]. intros y. lia.
Qed.

End History.

(** C5.  History append-only and ordered.  Over any run of session
    events and settled edits the edit history grows by exactly the
    successful edits: it is the list of their items, newest first, in
    front of the history the run started from, which is left as it was;
    from an empty history it has as many entries as edits succeeded,
    and its identifiers decrease down the list when the clock did not
    run backwards.  A single successful edit puts exactly one item,
    built from the request and the result, in front, and leaves the
    drawing stack and the drawing layer alone. *)
Theorem edit_history_append_only (P : Platform) (evs : list AppEvent) (a : App) :
  editHistory (app_run P evs a) = rev (completions evs) ++ editHistory a /\
  (editHistory a = [] ->
   length (editHistory (app_run P evs a)) = length (completions evs) /\
   (Sorted Z.le (map Item.id (completions evs)) ->
    StronglySorted Z.ge (map Item.id (editHistory (app_run P evs a))))) /\
  (forall r url now stamp,
     url <> [] ->
     let a' := app_step P a (Settled r (Resolved (Some url)) now stamp) in
     editHistory a'
     = {| Item.id := now; Item.timestamp := stamp;
          Item.sourceImage := req_image r; Item.maskImage := req_mask r;
          Item.referenceImage := req_reference r; Item.prompt := req_prompt r;
          Item.resultImage := url |} :: editHistory a /\
     resultImage (editor a') = Some url /\
     drawingHistory (editor a') = drawingHistory (editor a) /\
     dom (editor a') = dom (editor a)).
Proof.
  split; [apply app_run_history|]. split.
  - intros Hnil. rewrite app_run_history, Hnil, app_nil_r. split.
    + apply length_rev.
    + intros Hs. rewrite map_rev. now apply rev_sorted.
  - intros r [|c url] now stamp Hne; [congruence|]. cbn zeta.
    repeat split.
Qed.

Lemma edit_history_append_only_witness :
  length (editHistory
            (app_run Bench.platform
               [ Settled {| req_image := Bench.png; req_mask := Bench.png;
                            req_prompt := js "add a pool"; req_reference := None |}
                   (Resolved (Some (js "data:image/png;base64,CCCC")))
                   1000 (js "09:41");
                 Session Undo;
                 Settled {| req_image := Bench.png; req_mask := Bench.png;
                            req_prompt := js "remove the car"; req_reference := None |}
                   Rejected 2000 (js "09:42");
                 Settled {| req_image := Bench.png; req_mask := Bench.png;
                            req_prompt := js "red brick wall"; req_reference := None |}
                   (Resolved (Some (js "data:image/png;base64,DDDD")))
                   3000 (js "09:43") ]
               {| editor := Bench.ready; editHistory := [] |})) = 2%nat /\
  map Item.id
    (editHistory
       (app_run Bench.platform
          [ Settled {| req_image := Bench.png; req_mask := Bench.png;
                       req_prompt := js "add a pool"; req_reference := None |}
              (Resolved (Some (js "data:image/png;base64,CCCC")))
              1000 (js "09:41");
            Session Undo;
            Settled {| req_image := Bench.png; req_mask := Bench.png;
                       req_prompt := js "remove the car"; req_reference := None |}
              Rejected 2000 (js "09:42");
            Settled {| req_image := Bench.png; req_mask := Bench.png;
                       req_prompt := js "red brick wall"; req_reference := None |}
              (Resolved (Some (js "data:image/png;base64,DDDD")))
              3000 (js "09:43") ]
          {| editor := Bench.ready; editHistory := [] |})) = [3000; 1000] /\
  StronglySorted Z.ge [3000; 1000].
Proof.
  match goal with
  | |- length (editHistory (app_run ?P ?evs ?a)) = _ /\ _ =>
      destruct (edit_history_append_only P evs a) as (_ & H & _)
  end.
  destruct (H eq_refl) as [Hl Hs].
  split; [exact Hl|]. split; [reflexivity|].
  apply Hs. simpl. repeat (constructor; try lia).
Defined.

(** ** Chaining a result into a new source *)

(** C8.  Continue editing, when the result on display is a data URL the
    parser accepts: the source image becomes the parsed result (the
    same payload and content type, so the same picture), the result
    display and the reference image are cleared, and the prompt stays.
    The handler itself leaves the drawing stack as it is; the stack is
    emptied and the drawing layer blanked when the new source has
    loaded, by the [onload] that [drawImageOnCanvas] installs for it. *)
Theorem continue_editing_chains (P : Platform) (st : ImageEditor)
    (url : JsString) (img : SourceImage) :
  resultImage st = Some url ->
  dataUrlToSourceImage url = Some img ->
  toDataUrl img = url /\
  image (handleContinueEditing st) = Some img /\
  resultImage (handleContinueEditing st) = None /\
  referenceImage (handleContinueEditing st) = None /\
  prompt (handleContinueEditing st) = prompt st /\
  drawingHistory (handleContinueEditing st) = drawingHistory st /\
  (forall imageEl cw,
     decode P url = Some imageEl ->
     exists onload,
       drawImageOnCanvas P (handleContinueEditing st) = Some onload /\
       drawingHistory (onload cw (handleContinueEditing st)) = [] /\
       image (onload cw (handleContinueEditing st)) = Some img /\
       resultImage (onload cw (handleContinueEditing st)) = None /\
       referenceImage (onload cw (handleContinueEditing st)) = None /\
       exists d,
         dom (onload cw (handleContinueEditing st)) = Some d /\
         bitmap (sourceDrawingCanvas d) = blank (width imageEl) (height imageEl)).
Proof.
  intros Hr Hparse.
  destruct (dataUrlToSourceImage_inv _ Hparse) as (_ & _ & Hurl).
  assert (Hst : handleContinueEditing st
                = setReferenceImage None
                    (setResultImage None (setImage (Some img) st))).
  { unfold handleContinueEditing. rewrite Hr.
    assert (truthy_result (Some url) = Some url) as ->
      by (rewrite Hurl; reflexivity).
    now rewrite Hparse. }
  rewrite Hst. split; [now symmetry|]. repeat (split; [reflexivity|]).
  intros imageEl cw Hdec.
  exists (imageEl_onload imageEl). split.
  - unfold drawImageOnCanvas.
    cbn [image dom setReferenceImage setResultImage setImage].
    rewrite <- Hurl, Hdec. now destruct (dom st).
  - unfold imageEl_onload.
    cbn [image dom setReferenceImage setResultImage setImage].
    assert (exists d0, match dom st with Some d => Some d | None => Some mount end
                       = Some d0) as [d0 ->]
      by (destruct (dom st) as [d0|]; eauto).
    repeat (split; [reflexivity|]).
    eexists. split; [reflexivity|].
    cbn [sourceDrawingCanvas with_drawing].
    rewrite resize_fresh.
    apply (@clearRect_blank (fresh (width imageEl) (height imageEl))).
    apply blank_well_formed.
Qed.

Lemma continue_editing_chains_witness :
  image (handleContinueEditing Bench.ready)
  = Some {| base64 := js "BBBB"; mimeType := js "image/png" |} /\
  resultImage (handleContinueEditing Bench.ready) = None /\
  drawingHistory (handleContinueEditing Bench.ready) = drawingHistory Bench.ready /\
  drawingHistory
    (imageEl_onload Bench.picture 500 (handleContinueEditing Bench.ready)) = [].
Proof.
  destruct (@continue_editing_chains Bench.platform Bench.ready
              (js "data:image/png;base64,BBBB")
              {| base64 := js "BBBB"; mimeType := js "image/png" |}
              eq_refl eq_refl)
    as (_ & Hi & Hr & _ & _ & Hh & Hload).
  destruct (Hload Bench.picture 500%float eq_refl) as (onload & Hd & Hh2 & _).
  split; [exact Hi|]. split; [exact Hr|]. split; [exact Hh|].
  vm_compute in Hd. inversion Hd; subst onload. exact Hh2.
Defined.

(** C8, as stated, fails: a result whose URL the parser does not accept
    (here an SVG picture) is on display, and continue editing neither
    clears it nor replaces the source. *)
Lemma continue_editing_ignores_other_urls :
  ~ (forall (st : ImageEditor) (url : JsString),
       resultImage st = Some url -> url <> [] ->
       image (handleContinueEditing st) <> image st /\
       resultImage (handleContinueEditing st) = None).
Proof.
  intros H.
  destruct (H (setResultImage (Some (js "data:image/svg+xml;base64,PHN2Zy8+"))
                 Bench.ready)
              (js "data:image/svg+xml;base64,PHN2Zy8+") eq_refl)
    as [_ Hr].
  - discriminate.
  - vm_compute in Hr. discriminate.
Qed.

(** ** Pointer and brush scaling *)



(** The mapping rounds as the code does.  On a canvas 29 wide shown 7
    CSS pixels wide, a pointer on the right edge of the box lands just
    past the native width; and a picture 1920 wide in a container of
    500 gets a display width just above 500. *)
Remark getMousePos_rounds :
  (of_nat 29
   <? fst (getMousePos (fresh 29 1)
             {| DOMRect.left := 0; DOMRect.top := 0;
                DOMRect.width := 7; DOMRect.height := 1 |}
             {| clientX := 7; clientY := 0 |}))%float
  = true.
Proof. reflexivity. Qed.

Remark display_width_rounds :
  exists d w h,
    dom (imageEl_onload (blank 1920 1080) 500 (setImage (Some Bench.png) initial))
    = Some d /\
    aspectRatio d = Some (w, h) /\
    (500 <? w)%float = true.
Proof.
  unfold imageEl_onload, clearMask, on_drawing.
  cbn [dom setImage initial set_dom setDrawingHistory with_drawing aspectRatio].
  do 3 eexists. split; [reflexivity|]. split; [reflexivity|]. reflexivity.
Qed.

(** ** Data URLs round trip *)

(** C10.  [dataUrlToSourceImage] inverts the construction of a data URL
    on what the pattern accepts: for a content type ["image/"] plus
    lowercase letters and a non-empty payload that holds no line
    terminator, parsing the URL built from them gives back exactly that
    [SourceImage]; conversely a parse only succeeds on such a URL and
    returns its two parts, so every other string gives null; and with
    such a string as the result on display, continue editing returns
    the session as it is. *)
Theorem dataUrlToSourceImage_round_trip (img : SourceImage) :
  (image_mime (mimeType img) -> one_line (base64 img) ->
   dataUrlToSourceImage (toDataUrl img) = Some img) /\
  (forall s,
     dataUrlToSourceImage s = Some img <->
     image_mime (mimeType img) /\ one_line (base64 img) /\ s = toDataUrl img) /\
  (forall s,
     ~ (exists i, image_mime (mimeType i) /\ one_line (base64 i) /\ s = toDataUrl i) ->
     dataUrlToSourceImage s = None /\
     forall st, resultImage st = Some s -> handleContinueEditing st = st).
Proof.
  split; [apply dataUrlToSourceImage_complete|]. split.
  - intros s. split.
    + apply dataUrlToSourceImage_inv.
    + intros (Hm & Hp & ->). now apply dataUrlToSourceImage_complete.
  - intros s Hs.
    assert (Hnone : dataUrlToSourceImage s = None).
    { destruct (dataUrlToSourceImage s) as [i|] eqn:E; [|reflexivity].
      exfalso. apply Hs. exists i. now apply dataUrlToSourceImage_inv. }
    split; [exact Hnone|].
    intros st Hr. unfold handleContinueEditing. rewrite Hr.
    destruct (truthy_result (Some s)) as [u|] eqn:Hu; [|reflexivity].
    assert (u = s) as ->.
    { unfold truthy_result in Hu. destruct (falsy s); congruence. }
    now rewrite Hnone.
Qed.

Lemma dataUrlToSourceImage_round_trip_witness :
  dataUrlToSourceImage (js "data:image/png;base64,AAAA") = Some Bench.png /\
  dataUrlToSourceImage (js "data:image/svg+xml;base64,PHN2Zy8+") = None.
Proof.
  split.
  - apply (proj1 (dataUrlToSourceImage_round_trip Bench.png)).
    + exists (js "png"). repeat split. discriminate.
    + split; [discriminate | reflexivity].
  - apply (proj2 (proj2 (dataUrlToSourceImage_round_trip Bench.png))).
    intros (i & Hm & Hp & Hs).
    pose proof (proj1 (dataUrlToSourceImage_round_trip i) Hm Hp) as Hi.
    rewrite <- Hs in Hi. vm_compute in Hi. discriminate.
Defined.

(** C10, as stated, fails: a non-empty payload with a line feed in it is
    not given back; the pattern's [.] stops at line terminators and the
    parse returns null. *)
Lemma dataUrlToSourceImage_line_feed :
  ~ (forall img : SourceImage,
       image_mime (mimeType img) -> base64 img <> [] ->
       dataUrlToSourceImage (toDataUrl img) = Some img).
Proof.
  intros H.
  specialize (H {| base64 := [65; 10; 66]%N; mimeType := js "image/png" |}).
  cbn [mimeType base64] in H.
  assert (Hn : dataUrlToSourceImage
                 (toDataUrl {| base64 := [65; 10; 66]%N; mimeType := js "image/png" |})
               = None) by reflexivity.
  rewrite H in Hn; [discriminate | | discriminate].
  exists (js "png"). repeat split. discriminate.
Qed.

(* ================================================================== *)
(** * Further properties of the code *)

(** ** Uploading a picture *)

Section Upload.

Lemma split_toDataUrl (img : SourceImage) :
  ~ In comma (mimeType img) -> ~ In comma (base64 img) ->
  split comma (toDataUrl img) = [js "data:" ++ mimeType img ++ js ";base64"; base64 img].
Proof.
  intros Hm Hb. unfold toDataUrl.
  replace (js "data:" ++ mimeType img ++ js ";base64," ++ base64 img)
    with ((js "data:" ++ mimeType img ++ js ";base64") ++ comma :: base64 img)
    by (rewrite <- !app_assoc; reflexivity).
  rewrite split_at_sep.
  - now rewrite split_no_sep.
  - intros Hin. apply in_app_or in Hin as [Hin|Hin].
    + vm_compute in Hin. intuition discriminate.
    + apply in_app_or in Hin as [Hin|Hin]; [now apply Hm|].
      vm_compute in Hin. intuition discriminate.
Qed.

End Upload.

(** X1.  [processFile] answers a file whose type does not start with
    ["image/"] with the alert and reads nothing.  For an image type it
    reads the file, and when the reader's data URL carries a non-empty
    payload the picture becomes the source with exactly that payload
    and the file's type; result and reference are cleared, prompt and
    drawing stack are left alone, and the canvases are mounted.  An
    empty payload changes nothing. *)
Theorem processFile_reads_picture (fileType payload : JsString) (st : ImageEditor) :
  (startsWith (js "image/") fileType = false -> processFile fileType = None) /\
  (startsWith (js "image/") fileType = true ->
   ~ In comma fileType -> ~ In comma payload ->
   exists onload,
     processFile fileType = Some onload /\
     (payload = [] ->
      onload (toDataUrl {| base64 := payload; mimeType := fileType |}) st = st) /\
     (payload <> [] ->
      onload (toDataUrl {| base64 := payload; mimeType := fileType |}) st
      = setReferenceImage None
          (setResultImage None
             (setImage (Some {| base64 := payload; mimeType := fileType |}) st)) /\
      image (onload (toDataUrl {| base64 := payload; mimeType := fileType |}) st)
      = Some {| base64 := payload; mimeType := fileType |} /\
      prompt (onload (toDataUrl {| base64 := payload; mimeType := fileType |}) st)
      = prompt st /\
      drawingHistory (onload (toDataUrl {| base64 := payload; mimeType := fileType |}) st)
      = drawingHistory st /\
      dom (onload (toDataUrl {| base64 := payload; mimeType := fileType |}) st)
      <> None)).
Proof.
  unfold processFile. split.
  - now intros ->.
  - intros -> Ht Hp. exists (reader_onload fileType). split; [reflexivity|].
    unfold reader_onload.
    rewrite (split_toDataUrl {| base64 := payload; mimeType := fileType |})
      by assumption.
    cbn [nth_error base64 mimeType]. split.
    + now intros ->.
    + intros Hne. apply falsy_cons in Hne. rewrite Hne.
      repeat split. cbn [dom setReferenceImage setResultImage setImage].
      destruct (dom st); discriminate.
Qed.

Lemma processFile_reads_picture_witness :
  exists onload,
    processFile (js "image/jpeg") = Some onload /\
    image (onload (js "data:image/jpeg;base64,AAAA") initial)
    = Some {| base64 := js "AAAA"; mimeType := js "image/jpeg" |}.
Proof.
  destruct (proj2 (processFile_reads_picture (js "image/jpeg") (js "AAAA") initial))
    as (onload & Hp & _ & Hload).
  - reflexivity.
  - vm_compute. intuition discriminate.
  - vm_compute. intuition discriminate.
  - exists onload. split; [exact Hp|].
    destruct Hload as (_ & Hi & _); [discriminate|]. exact Hi.
Defined.

(** ** Strokes, clearing and the undo stack *)

Section Strokes.

Variable P : Platform.

Lemma stopDrawing_mounted (st : ImageEditor) (d : Dom) :
  dom st = Some d ->
  drawingHistory (stopDrawing st)
  = drawingHistory st ++ [bitmap (sourceDrawingCanvas d)] /\
  exists d',
    dom (stopDrawing st) = Some d' /\
    bitmap (sourceDrawingCanvas d') = bitmap (sourceDrawingCanvas d).
Proof.
  intros Hd. unfold stopDrawing. rewrite Hd.
  cbn [drawingHistory dom setIsDrawing setDrawingHistory set_dom].
  unfold getImageData. rewrite bitmap_closePath. split; [reflexivity|].
  eexists. split; [reflexivity|].
  cbn [sourceDrawingCanvas with_drawing]. apply bitmap_closePath.
Qed.

Lemma clearMask_fields (st : ImageEditor) :
  image (clearMask st) = image st /\
  prompt (clearMask st) = prompt st /\
  resultImage (clearMask st) = resultImage st /\
  referenceImage (clearMask st) = referenceImage st /\
  drawingHistory (clearMask st) = [].
Proof.
  unfold clearMask, on_drawing. destruct (dom st); repeat split.
Qed.

End Strokes.



(** X3.  A mouse-leave after the mouse-up of a stroke records the same
    picture a second time, so the first undo after it removes only the
    duplicate: stack and layer are what they were right after the
    stroke. *)
Theorem undo_after_leave_changes_nothing (P : Platform) (st : ImageEditor) (d : Dom) :
  dom st = Some d ->
  snapshots_fit st ->
  drawingHistory (run P [MouseUp; MouseLeave; Undo] st)
  = drawingHistory (run P [MouseUp] st) /\
  exists d1 d3,
    dom (run P [MouseUp] st) = Some d1 /\
    dom (run P [MouseUp; MouseLeave; Undo] st) = Some d3 /\
    bitmap (sourceDrawingCanvas d3) = bitmap (sourceDrawingCanvas d1).
Proof.
  intros Hd Hfit. unfold run. cbn [fold_left step].
  destruct (stopDrawing_mounted st Hd) as (Hh1 & d1 & Hd1 & Hb1).
  destruct (stopDrawing_mounted (stopDrawing st) Hd1) as (Hh2 & d2 & Hd2 & Hb2).
  assert (Hfit2 : snapshots_fit (stopDrawing (stopDrawing st))).
  { apply (step_snapshots_fit P (stopDrawing st) MouseLeave); [|exact I].
    apply (step_snapshots_fit P st MouseUp); [exact Hfit | exact I]. }
  assert (Hne : drawingHistory (stopDrawing (stopDrawing st)) <> []).
  { rewrite Hh2. now destruct (drawingHistory (stopDrawing st)). }
  destruct (@handleUndo_repaints _ Hne Hfit2) as [_ Hm].
  pose proof (@handleUndo_history _ Hne) as Hh3.
  rewrite Hh2, removelast_last in Hh3.
  split; [exact Hh3|].
  unfold layer_matches_stack in Hm. rewrite Hh3 in Hm.
  destruct (dom (handleUndo (stopDrawing (stopDrawing st)))) as [d3|] eqn:Hd3.
  - exists d1, d3. repeat split; [exact Hd1|].
    cbn zeta in Hm. rewrite Hm, Hh1, last_last. now rewrite Hb1.
  - exfalso.
    pose proof (step_drawing_size P (stopDrawing (stopDrawing st)) Undo) as Hs.
    cbn [step] in Hs. unfold drawing_size in Hs. now rewrite Hd3, Hd2 in Hs.
Qed.

Lemma undo_after_leave_changes_nothing_witness :
  drawingHistory (run Bench.platform [MouseUp; MouseLeave; Undo] Bench.loaded)
  = drawingHistory (run Bench.platform [MouseUp] Bench.loaded).
Proof.
  destruct (dom Bench.loaded) as [d|] eqn:Hd; [|discriminate].
  apply (proj1 (@undo_after_leave_changes_nothing Bench.platform Bench.loaded d Hd
                  (imageEl_onload_snapshots_fit Bench.picture 500
                     (setImage (Some Bench.png) initial)
                     (conj (blank_well_formed 300 150) (Forall_nil _))))).
Defined.

(** X4.  [clearMask] empties the stack and, on a full-raster layer,
    leaves it blank at its size, so layer and stack agree and an undo
    right after is a no-op; source, prompt, result and reference are
    not touched, and clearing twice is clearing once. *)
Theorem clearMask_resets (st : ImageEditor) :
  drawingHistory (clearMask st) = [] /\
  handleUndo (clearMask st) = clearMask st /\
  image (clearMask st) = image st /\
  prompt (clearMask st) = prompt st /\
  resultImage (clearMask st) = resultImage st /\
  referenceImage (clearMask st) = referenceImage st /\
  (forall d, dom st = Some d ->
     well_formed (bitmap (sourceDrawingCanvas d)) ->
     (exists d',
        dom (clearMask st) = Some d' /\
        bitmap (sourceDrawingCanvas d')
        = blank (canvas_width (sourceDrawingCanvas d))
            (canvas_height (sourceDrawingCanvas d))) /\
     layer_matches_stack (clearMask st) /\
     clearMask (clearMask st) = clearMask st).
Proof.
  assert (Hh : drawingHistory (clearMask st) = []) by reflexivity.
  split; [exact Hh|]. split.
  { unfold handleUndo. now rewrite Hh. }
  unfold clearMask, on_drawing.
  destruct (dom st) as [d0|] eqn:Hd.
  - repeat (split; [reflexivity|]).
    intros d [= <-] Hwf.
    pose proof (@clearRect_blank _ Hwf) as Hb.
    split; [|split].
    + eexists. split; [reflexivity|]. exact Hb.
    + unfold layer_matches_stack.
      cbn [dom setDrawingHistory set_dom drawingHistory last
           with_drawing sourceDrawingCanvas]. cbn zeta. exact Hb.
    + cbn [dom setDrawingHistory set_dom with_drawing sourceDrawingCanvas].
      set (c1 := clearRect _ _ (sourceDrawingCanvas d0)).
      assert (Hc : clearRect (canvas_width c1) (canvas_height c1) c1 = c1).
      { assert (Hb1 : bitmap (clearRect (canvas_width c1) (canvas_height c1) c1)
                      = bitmap c1).
        { rewrite clearRect_blank by (unfold c1; rewrite Hb; apply blank_well_formed).
          unfold c1 at 3. now rewrite Hb. }
        unfold clearRect, with_bitmap in *. cbn [bitmap] in Hb1.
        destruct c1 as [b f s g l p]. cbn [bitmap fillStyle strokeStyle
          globalCompositeOperation lineWidth path] in *.
        now rewrite Hb1. }
      now rewrite Hc.
  - repeat (split; [reflexivity|]). intros d [=].
Qed.

Lemma clearMask_resets_witness :
  layer_matches_stack (clearMask Bench.painted) /\
  clearMask (clearMask Bench.painted) = clearMask Bench.painted.
Proof.
  destruct (dom Bench.painted) as [d|] eqn:Hd; [|discriminate].
  destruct (proj2 (proj2 (proj2 (proj2 (proj2 (proj2
              (clearMask_resets Bench.painted)))))) d Hd) as (_ & Hm & Hi).
  - injection Hd as <-. vm_compute. split; [reflexivity | repeat constructor].
  - split; [exact Hm | exact Hi].
Defined.

(** ** Handing pictures and history items to the editor *)

(** X5.  Restoring an edit from the history panel: the item that a
    successful edit put in front of the history, once selected and
    taken up by the editor's effect, brings back the request's source
    picture, prompt and reference and the result of that edit; the
    drawing stack is empty (the mask is not redrawn), the edit tab is
    shown, the pending item is consumed, and the history itself is not
    changed by restoring. *)
Theorem restore_reproduces_edit (r : EditRequest) (url : JsString) (now : Z)
    (stamp : JsString) (sh later : Shell) :
  url <> [] ->
  exists item,
    editHistory (inner (shell_settled r (Resolved (Some url)) now stamp sh))
    = item :: editHistory (inner sh) /\
    image (editor (inner (commit_effects (handleSelectEditHistoryItem item later))))
    = Some (req_image r) /\
    prompt (editor (inner (commit_effects (handleSelectEditHistoryItem item later))))
    = req_prompt r /\
    referenceImage (editor (inner (commit_effects (handleSelectEditHistoryItem item later))))
    = req_reference r /\
    resultImage (editor (inner (commit_effects (handleSelectEditHistoryItem item later))))
    = Some url /\
    drawingHistory (editor (inner (commit_effects (handleSelectEditHistoryItem item later))))
    = [] /\
    activeTab (commit_effects (handleSelectEditHistoryItem item later)) = edit /\
    editHistoryItemToRestore (commit_effects (handleSelectEditHistoryItem item later))
    = None /\
    editHistory (inner (commit_effects (handleSelectEditHistoryItem item later)))
    = editHistory (inner later).
Proof.
  intros Hne. destruct url as [|c url]; [congruence|].
  eexists. split; [reflexivity|].
  unfold commit_effects, handleSelectEditHistoryItem.
  cbn [editHistoryItemToRestore imageForEditing inner editor editHistory
       activeTab historyItemToRestore_effect].
  set (st := setReferenceImage _ _).
  destruct (clearMask_fields st) as (Hi & Hp & Hr & Hf & Hh).
  rewrite Hi, Hp, Hr, Hf, Hh. repeat split.
Qed.

Lemma restore_reproduces_edit_witness :
  exists item,
    editHistory
      (inner (shell_settled
                {| req_image := Bench.png; req_mask := Bench.png;
                   req_prompt := js "add a pool"; req_reference := None |}
                (Resolved (Some (js "data:image/png;base64,CCCC"))) 1000 (js "09:41")
                {| inner := {| editor := Bench.ready; editHistory := [] |};
                   activeTab := edit; imageForEditing := None;
                   editHistoryItemToRestore := None |}))
    = [item] /\
    prompt (editor (inner (commit_effects
                             (handleSelectEditHistoryItem item
                                {| inner := {| editor := initial; editHistory := [] |};
                                   activeTab := exterior; imageForEditing := None;
                                   editHistoryItemToRestore := None |}))))
    = js "add a pool".
Proof.
  destruct (@restore_reproduces_edit
              {| req_image := Bench.png; req_mask := Bench.png;
                 req_prompt := js "add a pool"; req_reference := None |}
              (js "data:image/png;base64,CCCC") 1000 (js "09:41")
              {| inner := {| editor := Bench.ready; editHistory := [] |};
                 activeTab := edit; imageForEditing := None;
                 editHistoryItemToRestore := None |}
              {| inner := {| editor := initial; editHistory := [] |};
                 activeTab := exterior; imageForEditing := None;
                 editHistoryItemToRestore := None |})
    as (item & Hh & _ & Hp & _).
  - discriminate.
  - exists item. split; [exact Hh | exact Hp].
Defined.

(** X6.  [handleEditRequest] ("edit this render"): a URL the parser
    rejects leaves the application as it is, without switching tabs.
    A URL it accepts switches to the edit tab, and after the editor's
    effect the source is the parsed picture (which spells the same
    URL), prompt, result and reference are reset, the hand-over slot is
    empty again, and the edit history and the drawing stack are as
    before. *)
Theorem handleEditRequest_opens_editor (imageUrl : JsString) (sh : Shell) :
  (dataUrlToSourceImage imageUrl = None -> handleEditRequest imageUrl sh = sh) /\
  (forall img,
     dataUrlToSourceImage imageUrl = Some img ->
     editHistoryItemToRestore sh = None ->
     toDataUrl img = imageUrl /\
     activeTab (commit_effects (handleEditRequest imageUrl sh)) = edit /\
     imageForEditing (commit_effects (handleEditRequest imageUrl sh)) = None /\
     editor (inner (commit_effects (handleEditRequest imageUrl sh)))
     = setReferenceImage None
         (setPrompt [] (setResultImage None (setImage (Some img) (editor (inner sh))))) /\
     drawingHistory (editor (inner (commit_effects (handleEditRequest imageUrl sh))))
     = drawingHistory (editor (inner sh)) /\
     editHistory (inner (commit_effects (handleEditRequest imageUrl sh)))
     = editHistory (inner sh)).
Proof.
  unfold handleEditRequest. split.
  - now intros ->.
  - intros img Hparse Hnone. rewrite Hparse.
    destruct (dataUrlToSourceImage_inv _ Hparse) as (_ & _ & Hurl).
    split; [now symmetry|].
    unfold commit_effects.
    cbn [imageForEditing editHistoryItemToRestore inner activeTab editor
         editHistory initialImage_effect].
    rewrite Hnone. repeat split.
Qed.

Lemma handleEditRequest_opens_editor_witness :
  image (editor (inner (commit_effects
                          (handleEditRequest (js "data:image/png;base64,AAAA")
                             {| inner := {| editor := Bench.ready; editHistory := [] |};
                                activeTab := exterior; imageForEditing := None;
                                editHistoryItemToRestore := None |}))))
  = Some Bench.png /\
  handleEditRequest (js "data:image/svg+xml;base64,PHN2Zy8+")
    {| inner := {| editor := Bench.ready; editHistory := [] |};
       activeTab := exterior; imageForEditing := None;
       editHistoryItemToRestore := None |}
  = {| inner := {| editor := Bench.ready; editHistory := [] |};
       activeTab := exterior; imageForEditing := None;
       editHistoryItemToRestore := None |}.
Proof.
  split.
  - destruct (proj2 (handleEditRequest_opens_editor (js "data:image/png;base64,AAAA")
                       {| inner := {| editor := Bench.ready; editHistory := [] |};
                          activeTab := exterior; imageForEditing := None;
                          editHistoryItemToRestore := None |})
                Bench.png eq_refl eq_refl) as (_ & _ & _ & He & _).
    rewrite He. reflexivity.
  - apply (proj1 (handleEditRequest_opens_editor _ _)). reflexivity.
Defined.

(** ** The zoom editor *)

Section ZoomFacts.

Variable P : Platform.











End ZoomFacts.







(** ** The before/after slider *)

(** X10.  [handleMove] of the compare slider: for a container of
    positive width the divider position is a percentage between 0 and
    100 wherever the pointer is; it is 0 for a pointer at or left of
    the container and 100 at or right of it.  While the container ref
    is unset the position is kept.  Numbers are exact rationals. *)
Theorem handleMove_percent (r : Rect.t) (clientX sliderPosition : Q) :
  (0 < Rect.width r)%Q ->
  (0 <= Slider.handleMove (Some r) clientX sliderPosition)%Q /\
  (Slider.handleMove (Some r) clientX sliderPosition <= 100)%Q /\
  ((clientX <= Rect.left r)%Q ->
   (Slider.handleMove (Some r) clientX sliderPosition == 0)%Q) /\
  ((Rect.left r + Rect.width r <= clientX)%Q ->
   (Slider.handleMove (Some r) clientX sliderPosition == 100)%Q) /\
  Slider.handleMove None clientX sliderPosition = sliderPosition.
Proof.
  intros Hw. unfold Slider.handleMove.
  set (a := (clientX - Rect.left r)%Q). set (w := Rect.width r) in *.
  set (x := Qmax 0 (Qmin a w)).
  assert (Hw0 : (0 <= w)%Q) by now apply Qlt_le_weak.
  assert (Hx0 : (0 <= x)%Q) by apply Q.le_max_l.
  assert (Hxw : (x <= w)%Q).
  { apply Q.max_lub; [exact Hw0 | apply Q.le_min_r]. }
  assert (Hwn : ~ (w == 0)%Q).
  { intros E. rewrite E in Hw. now apply Qlt_irrefl in Hw. }
  split; [|split; [|split; [|split]]].
  - apply Qmult_le_0_compat; [|discriminate].
    unfold Qdiv. apply Qmult_le_0_compat; [exact Hx0|].
    now apply Qinv_le_0_compat.
  - apply Qle_trans with (1 * 100)%Q; [|discriminate].
    apply Qmult_le_compat_r; [|discriminate].
    apply Qle_shift_div_r; [exact Hw|]. now rewrite Qmult_1_l.
  - intros Hleft.
    assert (Ha : (a <= 0)%Q).
    { unfold a. apply (Qplus_le_l _ _ (Rect.left r)). ring_simplify. exact Hleft. }
    assert (Hx : (x == 0)%Q).
    { unfold x. apply Q.max_l.
      apply Qle_trans with a; [apply Q.le_min_l | exact Ha]. }
    rewrite Hx. unfold Qdiv. ring.
  - intros Hright.
    assert (Ha : (w <= a)%Q).
    { unfold a. apply (Qplus_le_l _ _ (Rect.left r)). ring_simplify.
      rewrite Qplus_comm. exact Hright. }
    assert (Hx : (x == w)%Q).
    { unfold x. rewrite (Q.min_r _ _ Ha). now apply Q.max_r. }
    rewrite Hx. field. exact Hwn.
  - reflexivity.
Qed.

Lemma handleMove_percent_witness :
  (Slider.handleMove
     (Some {| Rect.left := 10; Rect.top := 0; Rect.width := 200; Rect.height := 100 |})
     60 50 <= 100)%Q /\
  (Slider.handleMove
     (Some {| Rect.left := 10; Rect.top := 0; Rect.width := 200; Rect.height := 100 |})
     60 50 == 25)%Q.
Proof.
  split.
  - apply (@handleMove_percent
             {| Rect.left := 10; Rect.top := 0; Rect.width := 200; Rect.height := 100 |}
             60 50).
    reflexivity.
  - reflexivity.
Defined.

(** ** The fullscreen viewer *)

(** X11.  The index of the fullscreen viewer never leaves the list:
    starting inside [0, length), any sequence of previous, next and key
    presses keeps it inside, so [images[currentIndex]] is always
    defined; previous at the first picture and next at the last one
    stay where they are. *)
Theorem viewer_index_in_range (len : Z) (evs : list Viewer.Event) (start : Z) :
  0 <= start < len ->
  0 <= fold_left (Viewer.step len) evs start < len /\
  Viewer.handlePrev 0 = 0 /\
  Viewer.handleNext len (len - 1) = len - 1.
Proof.
  intros Hs. split; [|split].
  - revert start Hs. induction evs as [|ev evs IH]; intros start Hs; [exact Hs|].
    cbn [fold_left]. apply IH.
    destruct ev as [| |[]]; cbn [Viewer.step Viewer.handleKeyDown fst];
      unfold Viewer.handlePrev, Viewer.handleNext;
      try destruct (Z.ltb_spec 0 start); try destruct (Z.ltb_spec start (len - 1));
      lia.
  - reflexivity.
  - unfold Viewer.handleNext. now rewrite Z.ltb_irrefl.
Qed.

Lemma viewer_index_in_range_witness :
  0 <= fold_left (Viewer.step 3)
         [Viewer.Next; Viewer.Next; Viewer.Next; Viewer.KeyDown Viewer.ArrowLeft;
          Viewer.Prev; Viewer.Prev]
         1 < 3.
Proof.
  apply (@viewer_index_in_range 3
           [Viewer.Next; Viewer.Next; Viewer.Next; Viewer.KeyDown Viewer.ArrowLeft;
            Viewer.Prev; Viewer.Prev] 1).
  lia.
Defined.

(** ** Upscaling and the render histories *)

Section Upscale.

Lemma JsString_eqb_eq (a b : JsString) : JsString_eqb a b = true <-> a = b.
Proof.
  revert b. induction a as [|x a IH]; destruct b as [|y b]; simpl;
    try (split; congruence).
  rewrite andb_true_iff, N.eqb_eq, IH. split.
  - now intros [-> ->].
  - intros [= -> ->]. auto.
Qed.

Lemma includes_In (s : JsString) (l : list JsString) :
  includes s l = true <-> In s l.
Proof.
  unfold includes. rewrite existsb_exists. split.
  - intros (x & Hx & He). apply JsString_eqb_eq in He. now subst.
  - intros H. exists s. split; [exact H | now apply JsString_eqb_eq].
Qed.

Lemma findIndex_first {A} (p : A -> bool) (pre : list A) (a : A) (post : list A) :
  (forall x, In x pre -> p x = false) -> p a = true ->
  findIndex p (pre ++ a :: post) = Some (length pre).
Proof.
  intros Hpre Ha. induction pre as [|x pre IH]; simpl.
  - now rewrite Ha.
  - rewrite (Hpre x) by now left.
    rewrite IH; [reflexivity|]. intros y Hy. apply Hpre. now right.
Qed.

Lemma findIndex_None {A} (p : A -> bool) (l : list A) :
  (forall x, In x l -> p x = false) -> findIndex p l = None.
Proof.
  intros H. induction l as [|x l IH]; simpl; [reflexivity|].
  rewrite (H x) by now left.
  rewrite IH; [reflexivity|]. intros y Hy. apply H. now right.
Qed.

Lemma findIndex_Some {A} (p : A -> bool) (l : list A) (i : nat) :
  findIndex p l = Some i ->
  exists pre a post,
    l = pre ++ a :: post /\ length pre = i /\ p a = true /\
    forall x, In x pre -> p x = false.
Proof.
  revert i. induction l as [|x l IH]; simpl; intros i H; [discriminate|].
  destruct (p x) eqn:Hx.
  - inversion H; subst. exists [], x, l. repeat split; auto. intros y [].
  - destruct (findIndex p l) as [j|]; [|discriminate].
    inversion H; subst.
    destruct (IH j eq_refl) as (pre & a & post & -> & Hl & Ha & Hpre).
    exists (x :: pre), a, post. repeat split; simpl; auto.
    intros y [<-|Hy]; auto.
Qed.

Lemma replace_at_mid {A} (pre : list A) (a v : A) (post : list A) :
  replace_at (length pre) v (pre ++ a :: post) = pre ++ v :: post.
Proof. induction pre as [|x pre IH]; simpl; congruence. Qed.

Lemma nth_error_mid {A} (pre : list A) (a : A) (post : list A) :
  nth_error (pre ++ a :: post) (length pre) = Some a.
Proof. induction pre as [|x pre IH]; simpl; auto. Qed.

(** Either nothing changes, or one picture of one entry is replaced. *)
Lemma upscale_history_cases (url up : JsString) (prev : list Render.t) :
  upscale_history url up prev = prev \/
  exists pre item post before after,
    prev = pre ++ item :: post /\
    Render.images item = before ++ url :: after /\
    (forall i, In i pre -> ~ In url (Render.images i)) /\
    ~ In url before /\
    upscale_history url up prev
    = pre ++ {| Render.id := Render.id item;
                Render.timestamp := Render.timestamp item;
                Render.images := before ++ up :: after;
                Render.prompt := Render.prompt item |} :: post.
Proof.
  unfold upscale_history.
  destruct (findIndex _ prev) as [i|] eqn:Hi; [|now left].
  apply findIndex_Some in Hi as (pre & item & post & -> & <- & Hitem & Hpre).
  rewrite nth_error_mid.
  destruct (findIndex _ (Render.images item)) as [j|] eqn:Hj; [|now left].
  apply findIndex_Some in Hj as (before & u & after & Himgs & <- & Hu & Hbefore).
  apply JsString_eqb_eq in Hu. subst u.
  right. exists pre, item, post, before, after.
  split; [reflexivity|]. split; [exact Himgs|]. split; [|split].
  - intros i Hin Hurl. apply includes_In in Hurl.
    rewrite (Hpre i Hin) in Hurl. discriminate.
  - intros Hin. specialize (Hbefore url Hin).
    assert (JsString_eqb url url = true) by now apply JsString_eqb_eq.
    congruence.
  - rewrite replace_at_mid, Himgs, replace_at_mid. reflexivity.
Qed.

End Upscale.

(** X12.  The history update of [handleUpscale] replaces one picture
    and nothing else.  If no entry holds the source URL the history is
    returned as it was.  Otherwise, in the first entry that holds it,
    its first occurrence becomes the upscaled picture; the entries
    before and after, the other pictures of that entry, and its id,
    time stamp and prompt are unchanged. *)
Theorem upscale_history_first_occurrence (url up : JsString) (prev : list Render.t) :
  ((forall item, In item prev -> ~ In url (Render.images item)) ->
   upscale_history url up prev = prev) /\
  (forall pre item post before after,
     prev = pre ++ item :: post ->
     (forall i, In i pre -> ~ In url (Render.images i)) ->
     Render.images item = before ++ url :: after ->
     ~ In url before ->
     upscale_history url up prev
     = pre ++ {| Render.id := Render.id item;
                 Render.timestamp := Render.timestamp item;
                 Render.images := before ++ up :: after;
                 Render.prompt := Render.prompt item |} :: post).
Proof.
  split.
  - intros Hnone. unfold upscale_history.
    rewrite findIndex_None; [reflexivity|].
    intros item Hin. destruct (includes url (Render.images item)) eqn:E;
      [|reflexivity].
    apply includes_In in E. now apply Hnone in E.
  - intros pre item post before after -> Hpre Himgs Hbefore.
    unfold upscale_history.
    rewrite (findIndex_first (fun item => includes url (Render.images item))
               pre item post).
    + rewrite nth_error_mid, Himgs.
      rewrite (findIndex_first (fun img => JsString_eqb img url) before url after).
      * now rewrite !replace_at_mid.
      * intros x Hx. destruct (JsString_eqb x url) eqn:E; [|reflexivity].
        apply JsString_eqb_eq in E. subst. contradiction.
      * now apply JsString_eqb_eq.
    + intros x Hx. destruct (includes url (Render.images x)) eqn:E; [|reflexivity].
      apply includes_In in E. now apply Hpre in E.
    + apply includes_In. rewrite Himgs. apply in_or_app. right. now left.
Qed.

Lemma upscale_history_first_occurrence_witness :
  upscale_history (js "b") (js "B")
    [ {| Render.id := 2; Render.timestamp := js "09:42";
         Render.images := [js "a"]; Render.prompt := js "p2" |};
      {| Render.id := 1; Render.timestamp := js "09:41";
         Render.images := [js "a"; js "b"; js "b"]; Render.prompt := js "p1" |} ]
  = [ {| Render.id := 2; Render.timestamp := js "09:42";
         Render.images := [js "a"]; Render.prompt := js "p2" |};
      {| Render.id := 1; Render.timestamp := js "09:41";
         Render.images := [js "a"; js "B"; js "b"]; Render.prompt := js "p1" |} ].
Proof.
  apply (proj2 (upscale_history_first_occurrence (js "b") (js "B") _)
           [ {| Render.id := 2; Render.timestamp := js "09:42";
                Render.images := [js "a"]; Render.prompt := js "p2" |} ]
           {| Render.id := 1; Render.timestamp := js "09:41";
              Render.images := [js "a"; js "b"; js "b"]; Render.prompt := js "p1" |}
           [] [js "a"] [js "b"]).
  - reflexivity.
  - intros i [<-|[]]. vm_compute. intuition discriminate.
  - reflexivity.
  - vm_compute. intuition discriminate.
Defined.

(** X13.  Upscaling never adds, drops or reorders anything in a render
    history: the number of entries, their ids, time stamps and prompts,
    and the number of pictures of every entry are the same before and
    after, whatever the URLs are. *)
Theorem upscale_history_keeps_shape (url up : JsString) (prev : list Render.t) :
  length (upscale_history url up prev) = length prev /\
  map Render.id (upscale_history url up prev) = map Render.id prev /\
  map Render.timestamp (upscale_history url up prev) = map Render.timestamp prev /\
  map Render.prompt (upscale_history url up prev) = map Render.prompt prev /\
  map (fun item => length (Render.images item)) (upscale_history url up prev)
  = map (fun item => length (Render.images item)) prev.
Proof.
  destruct (upscale_history_cases url up prev)
    as [-> | (pre & item & post & before & after & -> & Himgs & _ & _ & ->)].
  - repeat split.
  - rewrite !length_app, !map_app. cbn [length map Render.id Render.timestamp
      Render.prompt Render.images].
    rewrite Himgs, !length_app. cbn [length]. repeat split.
Qed.

(** ** The edit service *)

Section Service.

Lemma first_inline_none (parts : list Part) :
  Forall (fun p => inlineData p = None) parts -> first_inline parts = None.
Proof.
  induction 1 as [|p parts Hp _ IH]; simpl; [reflexivity|]. now rewrite Hp.
Qed.

Lemma first_inline_first (pre : list Part) (p : Part) (post : list Part)
    (i : InlineData.t) :
  Forall (fun p => inlineData p = None) pre -> inlineData p = Some i ->
  first_inline (pre ++ p :: post)
  = Some (js "data:" ++ InlineData.mimeType i ++ js ";base64," ++ InlineData.data i).
Proof.
  intros Hpre Hp. induction Hpre as [|q pre Hq _ IH]; simpl.
  - now rewrite Hp.
  - now rewrite Hq.
Qed.

Lemma editImage_pictureless (API_KEY : option JsString)
    (generateContent : GenerateContentRequest -> option (list (list Part)))
    (sourceImage maskImage : SourceImage) (prompt : JsString)
    (referenceImage : option SourceImage) :
  pictureless API_KEY
    (generateContent (editImage_request sourceImage maskImage prompt referenceImage)) ->
  failure (editImage API_KEY generateContent sourceImage maskImage prompt referenceImage).
Proof.
  unfold pictureless, editImage. intros [Hk | Ha].
  - rewrite Hk. exact I.
  - destruct (truthy_result API_KEY); [|exact I].
    destruct (generateContent _) as [[|parts rest]|]; try exact I.
    cbn [extractBase64Image failure]. now rewrite first_inline_none.
Qed.

End Service.

(** X14.  An edit whose service call brings no picture (no API key, a
    call that throws, an answer without candidates, or a first
    candidate with no inline data) ends like any failed edit: the
    handler raises the failure alert, nothing reaches the edit history,
    loading is off, and the session equals the one before the click
    except that the result display is cleared. *)
Theorem submitEdit_without_picture (P : Platform) (API_KEY : option JsString)
    (generateContent : GenerateContentRequest -> option (list (list Part)))
    (st sent : ImageEditor) (r : EditRequest) (now : Z) (stamp : JsString)
    (h : list Item.t) :
  handleGenerate P st = (sent, Sent r) ->
  pictureless API_KEY
    (generateContent
       (editImage_request (req_image r) (req_mask r) (req_prompt r) (req_reference r))) ->
  submitEdit P API_KEY generateContent st
  = (setIsLoading false (setResultImage None st),
     [ConsoleError; Alerted AlertEditFailed]) /\
  deliver now stamp (snd (submitEdit P API_KEY generateContent st)) h = h.
Proof.
  intros Hs Hp. unfold submitEdit. rewrite Hs.
  apply handleGenerate_sent in Hs as (-> & _).
  rewrite handleGenerate_settled_failure by now apply editImage_pictureless.
  split; reflexivity.
Qed.

Lemma submitEdit_without_picture_witness :
  submitEdit Bench.platform (Some (js "key"))
    (fun _ => Some [[text_part (js "I cannot edit this picture.")]]) Bench.ready
  = (setIsLoading false (setResultImage None Bench.ready),
     [ConsoleError; Alerted AlertEditFailed]).
Proof.
  apply (@submitEdit_without_picture Bench.platform (Some (js "key"))
           (fun _ => Some [[text_part (js "I cannot edit this picture.")]])
           Bench.ready (fst (handleGenerate Bench.platform Bench.ready))
           {| req_image := Bench.png;
              req_mask := {| base64 := js "iVBORw0KGgo="; mimeType := js "image/png" |};
              req_prompt := js "add a pool"; req_reference := None |}
           0 [] []).
  - reflexivity.
  - right. repeat constructor.
Defined.

(** X15.  A successful edit end to end: with a key, and an answer whose
    first candidate's first inline part carries a picture of type
    ["image/"] plus lowercase letters and a non-empty one-line payload,
    exactly one completion is reported, carrying the request and the
    picture's data URL; the result display holds that URL; and
    "continue editing" then makes precisely the service's picture the
    new source and clears the result display. *)
Theorem submitEdit_result_chains (P : Platform) (API_KEY : option JsString)
    (generateContent : GenerateContentRequest -> option (list (list Part)))
    (st sent : ImageEditor) (r : EditRequest)
    (pre : list Part) (p : Part) (post : list Part) (rest : list (list Part))
    (i : InlineData.t) :
  handleGenerate P st = (sent, Sent r) ->
  truthy_result API_KEY <> None ->
  generateContent
    (editImage_request (req_image r) (req_mask r) (req_prompt r) (req_reference r))
  = Some ((pre ++ p :: post) :: rest) ->
  Forall (fun q => inlineData q = None) pre ->
  inlineData p = Some i ->
  image_mime (InlineData.mimeType i) ->
  one_line (InlineData.data i) ->
  exists after,
    submitEdit P API_KEY generateContent st
    = (after,
       [OnEditComplete
          {| Details.sourceImage := req_image r;
             Details.maskImage := req_mask r;
             Details.referenceImage := req_reference r;
             Details.prompt := req_prompt r;
             Details.resultImage :=
               toDataUrl {| base64 := InlineData.data i;
                            mimeType := InlineData.mimeType i |} |}]) /\
    resultImage after
    = Some (toDataUrl {| base64 := InlineData.data i;
                         mimeType := InlineData.mimeType i |}) /\
    isLoading after = false /\
    image (handleContinueEditing after)
    = Some {| base64 := InlineData.data i; mimeType := InlineData.mimeType i |} /\
    resultImage (handleContinueEditing after) = None.
Proof.
  intros Hs Hk Hg Hpre Hp Hm Hd.
  set (img := {| base64 := InlineData.data i; mimeType := InlineData.mimeType i |}).
  assert (Hparse : dataUrlToSourceImage (toDataUrl img) = Some img)
    by now apply dataUrlToSourceImage_complete.
  assert (Hresp : editImage API_KEY generateContent (req_image r) (req_mask r)
                    (req_prompt r) (req_reference r)
                  = Resolved (Some (toDataUrl img))).
  { unfold editImage. destruct (truthy_result API_KEY); [|congruence].
    rewrite Hg. cbn [extractBase64Image].
    now rewrite (@first_inline_first pre p post i Hpre Hp). }
  assert (Htruthy : truthy_result (Some (toDataUrl img)) = Some (toDataUrl img))
    by reflexivity.
  unfold submitEdit. rewrite Hs, Hresp.
  unfold handleGenerate_settled. rewrite Htruthy.
  eexists. split; [reflexivity|]. split; [reflexivity|]. split; [reflexivity|].
  unfold handleContinueEditing.
  cbn [resultImage setIsLoading setResultImage].
  rewrite Htruthy, Hparse. split; reflexivity.
Qed.

Lemma submitEdit_result_chains_witness :
  exists after,
    fst (submitEdit Bench.platform (Some (js "key"))
           (fun _ => Some [[text_part (js "Here it is.");
                            {| inlineData := Some {| InlineData.data := js "CCCC";
                                                     InlineData.mimeType := js "image/png" |};
                               text := None |}]])
           Bench.ready) = after /\
    image (handleContinueEditing after)
    = Some {| base64 := js "CCCC"; mimeType := js "image/png" |}.
Proof.
  destruct (@submitEdit_result_chains Bench.platform (Some (js "key"))
              (fun _ => Some [[text_part (js "Here it is.");
                               {| inlineData := Some {| InlineData.data := js "CCCC";
                                                        InlineData.mimeType := js "image/png" |};
                                  text := None |}]])
              Bench.ready (fst (handleGenerate Bench.platform Bench.ready))
              {| req_image := Bench.png;
                 req_mask := {| base64 := js "iVBORw0KGgo="; mimeType := js "image/png" |};
                 req_prompt := js "add a pool"; req_reference := None |}
              [text_part (js "Here it is.")]
              {| inlineData := Some {| InlineData.data := js "CCCC";
                                       InlineData.mimeType := js "image/png" |};
                 text := None |}
              [] []
              {| InlineData.data := js "CCCC"; InlineData.mimeType := js "image/png" |})
    as (after & Hsub & _ & _ & Hi & _).
  - reflexivity.
  - discriminate.
  - reflexivity.
  - repeat constructor.
  - reflexivity.
  - exists (js "png"). repeat split. discriminate.
  - split; [discriminate | reflexivity].
  - exists after. split; [now rewrite Hsub | exact Hi].
Defined.

(** ** The virtual tour *)

Section TourFacts.

Lemma search_mime_here (s m : JsString) :
  match_mime_here s = Some m -> search_mime s = Some m.
Proof.
  intros H. destruct s as [|c s]; [vm_compute in H; discriminate|].
  cbn [search_mime]. now rewrite H.
Qed.

Lemma lower_no_comma (letters : JsString) :
  forallb is_lower letters = true -> ~ In comma letters.
Proof.
  induction letters as [|c l IH]; simpl; [tauto|].
  rewrite andb_true_iff. intros [Hc Hl] [E|Hin]; [|now apply IH].
  subst c. discriminate.
Qed.

Lemma image_mime_no_comma (m : JsString) : image_mime m -> ~ In comma m.
Proof.
  intros (letters & _ & Hlow & ->) Hin.
  apply in_app_or in Hin as [Hin|Hin].
  - vm_compute in Hin. intuition discriminate.
  - now apply lower_no_comma in Hin.
Qed.

Lemma match_mime_here_data_url (m rest : JsString) :
  image_mime m ->
  match_mime_here (js "data:" ++ m ++ js ";base64," ++ rest) = Some m.
Proof.
  intros (letters & Hne & Hlow & ->). unfold match_mime_here.
  rewrite strip_prefix_app, <- app_assoc, strip_prefix_app.
  change (js ";base64," ++ rest) with (59%N :: (js "base64," ++ rest)).
  rewrite span_stop by (assumption || reflexivity).
  apply falsy_cons in Hne. rewrite Hne. reflexivity.
Qed.

End TourFacts.

(** X16.  Undo and redo of the tour are inverse to each other: with
    something to undo, undo followed by redo gives back the very same
    state, and with something to redo, redo followed by undo does;
    with an empty stack each is a no-op. *)
Theorem tour_undo_redo_inverse (z : Tour.t) :
  (Tour.undoStack z <> [] -> Tour.handleRedo (Tour.handleUndo z) = z) /\
  (Tour.redoStack z <> [] -> Tour.handleUndo (Tour.handleRedo z) = z) /\
  (Tour.undoStack z = [] -> Tour.handleUndo z = z) /\
  (Tour.redoStack z = [] -> Tour.handleRedo z = z).
Proof.
  destruct z as [c u r l m g]. cbn [Tour.undoStack Tour.redoStack].
  split; [|split; [|split]].
  - intros Hne. unfold Tour.handleUndo. cbn [Tour.undoStack Tour.redoStack
      Tour.currentImage Tour.isLoading Tour.loadingMessage Tour.magnitude].
    replace (0 <? length u)%nat with true by now destruct u.
    unfold Tour.handleRedo. cbn [Tour.undoStack Tour.redoStack
      Tour.currentImage Tour.isLoading Tour.loadingMessage Tour.magnitude
      length Nat.ltb Nat.leb hd tl].
    now rewrite <- (app_removelast_last None Hne).
  - intros Hne. unfold Tour.handleRedo. cbn [Tour.undoStack Tour.redoStack
      Tour.currentImage Tour.isLoading Tour.loadingMessage Tour.magnitude].
    replace (0 <? length r)%nat with true by now destruct r.
    unfold Tour.handleUndo. cbn [Tour.undoStack Tour.redoStack
      Tour.currentImage Tour.isLoading Tour.loadingMessage Tour.magnitude].
    replace (0 <? length (u ++ [c]))%nat with true
      by (rewrite length_app, Nat.add_comm; reflexivity).
    rewrite removelast_last, last_last.
    now destruct r.
  - now intros ->.
  - now intros ->.
Qed.

Lemma tour_undo_redo_inverse_witness :
  Tour.handleRedo
    (Tour.handleUndo
       {| Tour.currentImage := Some Bench.png;
          Tour.undoStack := [Some {| base64 := js "BBBB"; mimeType := js "image/png" |}];
          Tour.redoStack := []; Tour.isLoading := false;
          Tour.loadingMessage := None; Tour.magnitude := 30 |})
  = {| Tour.currentImage := Some Bench.png;
       Tour.undoStack := [Some {| base64 := js "BBBB"; mimeType := js "image/png" |}];
       Tour.redoStack := []; Tour.isLoading := false;
       Tour.loadingMessage := None; Tour.magnitude := 30 |}.
Proof.
  apply (proj1 (tour_undo_redo_inverse _)). discriminate.
Defined.

(** X17.  The pictures of a tour, in order, are not touched by undo or
    redo: they only move the position.  A move that succeeds keeps the
    pictures to go back to, puts the picture it started from and the
    new one after them, and drops everything that could have been
    redone; a move that fails changes nothing but the loading flag and
    raises the alert. *)
Theorem tour_timeline (z : Tour.t) :
  Tour.timeline (Tour.handleUndo z) = Tour.timeline z /\
  Tour.timeline (Tour.handleRedo z) = Tour.timeline z /\
  (forall moveType,
     Tour.timeline (fst (Tour.handleNavigate moveType z)) = Tour.timeline z /\
     (snd (Tour.handleNavigate moveType z) = None <-> Tour.currentImage z = None)) /\
  (forall current url,
     url <> [] ->
     Tour.timeline (fst (Tour.handleNavigate_settled current (Resolved (Some url)) z))
     = Tour.undoStack z ++ [Some current; Some (Tour.newImage url)] /\
     Tour.redoStack (fst (Tour.handleNavigate_settled current (Resolved (Some url)) z))
     = [] /\
     snd (Tour.handleNavigate_settled current (Resolved (Some url)) z) = false) /\
  (forall current resp,
     failure resp ->
     Tour.timeline (fst (Tour.handleNavigate_settled current resp z))
     = Tour.timeline z /\
     Tour.isLoading (fst (Tour.handleNavigate_settled current resp z)) = false /\
     snd (Tour.handleNavigate_settled current resp z) = true).
Proof.
  destruct z as [c u r l m g].
  unfold Tour.timeline. split; [|split; [|split; [|split]]].
  - unfold Tour.handleUndo.
    cbn [Tour.undoStack Tour.redoStack Tour.currentImage Tour.isLoading
         Tour.loadingMessage Tour.magnitude].
    destruct u as [|e u]; [reflexivity|].
    cbn [length Nat.ltb Nat.leb Tour.undoStack Tour.redoStack Tour.currentImage].
    rewrite (@app_removelast_last _ (e :: u) None) at 3 by discriminate.
    now rewrite <- app_assoc.
  - unfold Tour.handleRedo.
    cbn [Tour.undoStack Tour.redoStack Tour.currentImage Tour.isLoading
         Tour.loadingMessage Tour.magnitude].
    destruct r as [|e r]; [reflexivity|].
    cbn [length Nat.ltb Nat.leb Tour.undoStack Tour.redoStack
         Tour.currentImage hd tl].
    now rewrite <- app_assoc.
  - intros moveType. unfold Tour.handleNavigate. cbn [Tour.currentImage].
    destruct c as [img|]; cbn [fst snd]; split; try reflexivity;
      split; congruence.
  - intros current [|c0 url] Hne; [congruence|].
    cbn [Tour.handleNavigate_settled truthy_result falsy fst snd
         Tour.undoStack Tour.redoStack Tour.currentImage].
    rewrite <- app_assoc. repeat split.
  - intros current resp Hf. unfold Tour.handleNavigate_settled.
    assert (match resp with Resolved r => truthy_result r | Rejected => None end = None)
      as -> by (destruct resp; [exact Hf | reflexivity]).
    repeat split.
Qed.

Lemma tour_timeline_witness :
  Tour.timeline
    (fst (Tour.handleNavigate_settled Bench.png
            (Resolved (Some (js "data:image/jpeg;base64,DDDD")))
            {| Tour.currentImage := Some Bench.png;
               Tour.undoStack := []; Tour.redoStack := [None];
               Tour.isLoading := true; Tour.loadingMessage := Some Tour.pan_left;
               Tour.magnitude := 30 |}))
  = [Some Bench.png; Some {| base64 := js "DDDD"; mimeType := js "image/jpeg" |}].
Proof.
  destruct (proj1 (proj2 (proj2 (proj2 (tour_timeline
              {| Tour.currentImage := Some Bench.png;
                 Tour.undoStack := []; Tour.redoStack := [None];
                 Tour.isLoading := true; Tour.loadingMessage := Some Tour.pan_left;
                 Tour.magnitude := 30 |}))))
              Bench.png (js "data:image/jpeg;base64,DDDD")) as (Ht & _).
  - discriminate.
  - etransitivity; [exact Ht | reflexivity].
Defined.

(** X18.  Over any sequence of uploads, removals, settled moves, undos
    and redos from the initial state, the stacks of the tour hold
    pictures only and there is a current picture whenever either stack
    is non-empty: the non-null assertions in [handleUndo] and
    [handleRedo] never meet a null. *)
Theorem tour_stacks_sound (evs : list Tour.Event) :
  Tour.sound (fold_left Tour.step evs Tour.initial).
Proof.
  assert (Hstep : forall z ev, Tour.sound z -> Tour.sound (Tour.step z ev)).
  { intros [c u r l m g] ev (Hu & Hr & Hc).
    cbn [Tour.undoStack Tour.redoStack Tour.currentImage] in Hu, Hr, Hc.
    destruct ev; cbn [Tour.step].
    - repeat split; try constructor. intros _. discriminate.
    - repeat split; try constructor. intros [H|H]; now elim H.
    - unfold Tour.handleNavigate_settled.
      destruct (match resp with Resolved r0 => truthy_result r0 | Rejected => None end).
      + cbn [fst]. repeat split; cbn [Tour.undoStack Tour.redoStack Tour.currentImage].
        * apply Forall_app. split; [exact Hu|]. repeat constructor. discriminate.
        * constructor.
        * intros _. discriminate.
      + cbn [fst]. repeat split; assumption.
    - unfold Tour.handleUndo.
      cbn [Tour.undoStack Tour.redoStack Tour.currentImage Tour.isLoading
           Tour.loadingMessage Tour.magnitude].
      destruct u as [|e u]; [repeat split; assumption|].
      cbn [length Nat.ltb Nat.leb].
      repeat split; cbn [Tour.undoStack Tour.redoStack Tour.currentImage].
      * now apply Forall_removelast.
      * constructor; [apply Hc; left; discriminate | exact Hr].
      * intros _. apply (@Forall_last _ (fun e => e <> None)); [discriminate | exact Hu].
    - unfold Tour.handleRedo.
      cbn [Tour.undoStack Tour.redoStack Tour.currentImage Tour.isLoading
           Tour.loadingMessage Tour.magnitude].
      destruct r as [|e r]; [repeat split; assumption|].
      cbn [length Nat.ltb Nat.leb hd tl].
      inversion Hr; subst.
      repeat split; cbn [Tour.undoStack Tour.redoStack Tour.currentImage].
      * apply Forall_app. split; [exact Hu|]. constructor; [|constructor].
        apply Hc. right. discriminate.
      * assumption.
      * intros _. assumption. }
  assert (Hrun : forall z, Tour.sound z -> Tour.sound (fold_left Tour.step evs z)).
  { induction evs as [|ev evs' IH]; intros z Hz; [exact Hz|].
    cbn [fold_left]. apply IH. now apply Hstep. }
  apply Hrun. repeat split; try constructor. intros [H|H]; now elim H.
Qed.

(** X19.  The tour reads the service's data URL with its own two
    expressions.  For a picture whose payload holds no comma and whose
    content type is ["image/"] plus lowercase letters, they give back
    exactly that picture from its data URL; so on every URL that
    [dataUrlToSourceImage] accepts with such a payload, the tour's
    picture is the one the parser returns. *)
Theorem tour_newImage_parses (img : SourceImage) :
  ~ In comma (base64 img) ->
  (image_mime (mimeType img) -> Tour.newImage (toDataUrl img) = img) /\
  (forall u, dataUrlToSourceImage u = Some img -> Tour.newImage u = img).
Proof.
  intros Hd.
  assert (Hnew : image_mime (mimeType img) -> Tour.newImage (toDataUrl img) = img).
  { intros Hm. unfold Tour.newImage.
    rewrite (@split_toDataUrl img (@image_mime_no_comma _ Hm) Hd).
    unfold toDataUrl. cbn [nth].
    rewrite (search_mime_here _ (match_mime_here_data_url (base64 img) Hm)).
    now destruct img. }
  split; [exact Hnew|].
  intros u Hparse.
  destruct (dataUrlToSourceImage_inv _ Hparse) as (Hm & _ & ->).
  now apply Hnew.
Qed.

Lemma tour_newImage_parses_witness :
  Tour.newImage (js "data:image/jpeg;base64,DDDD")
  = {| base64 := js "DDDD"; mimeType := js "image/jpeg" |}.
Proof.
  apply (proj2 (@tour_newImage_parses
                  {| base64 := js "DDDD"; mimeType := js "image/jpeg" |}
                  ltac:(vm_compute; intuition discriminate))).
  reflexivity.
Defined.

(** X20.  The tour's "edit" button: without a current picture the
    application is left as it is; with one, the edit tab is shown and,
    after the editor's effect, the editor's source is that picture with
    prompt, result and reference reset, while the edit history is not
    touched. *)
Theorem tour_handleEdit_opens_editor (z : Tour.t) (sh : Shell) :
  (Tour.currentImage z = None -> Tour.handleEdit z sh = sh) /\
  (forall img,
     Tour.currentImage z = Some img ->
     editHistoryItemToRestore sh = None ->
     activeTab (commit_effects (Tour.handleEdit z sh)) = edit /\
     imageForEditing (commit_effects (Tour.handleEdit z sh)) = None /\
     editor (inner (commit_effects (Tour.handleEdit z sh)))
     = setReferenceImage None
         (setPrompt [] (setResultImage None (setImage (Some img) (editor (inner sh))))) /\
     editHistory (inner (commit_effects (Tour.handleEdit z sh)))
     = editHistory (inner sh)).
Proof.
  unfold Tour.handleEdit. split.
  - now intros ->.
  - intros img -> Hnone. unfold commit_effects.
    cbn [imageForEditing editHistoryItemToRestore inner activeTab editor
         editHistory initialImage_effect].
    rewrite Hnone. repeat split.
Qed.

Lemma tour_handleEdit_opens_editor_witness :
  image (editor (inner (commit_effects
                          (Tour.handleEdit
                             (Tour.handleImageUpload Bench.png Tour.initial)
                             {| inner := {| editor := initial; editHistory := [] |};
                                activeTab := virtual_tour; imageForEditing := None;
                                editHistoryItemToRestore := None |}))))
  = Some Bench.png.
Proof.
  destruct (proj2 (tour_handleEdit_opens_editor
                     (Tour.handleImageUpload Bench.png Tour.initial)
                     {| inner := {| editor := initial; editHistory := [] |};
                        activeTab := virtual_tour; imageForEditing := None;
                        editHistoryItemToRestore := None |})
              Bench.png eq_refl eq_refl) as (_ & _ & He & _).
  rewrite He. reflexivity.
Defined.

(** ** Loading and sending *)

(** X21.  Every (re)load of the source picture wipes the mask:
    whenever [drawImageOnCanvas] starts a load (on a new picture, and
    on every window resize), its [onload] empties the drawing stack and
    leaves the drawing layer blank at the picture's natural size, while
    source, prompt, result and reference stay as they are.  Strokes
    drawn before a resize are gone after it. *)
Theorem reload_wipes_mask (P : Platform) (st : ImageEditor)
    (onload : number -> ImageEditor -> ImageEditor) (cw : number) :
  drawImageOnCanvas P st = Some onload ->
  drawingHistory (onload cw st) = [] /\
  image (onload cw st) = image st /\
  prompt (onload cw st) = prompt st /\
  resultImage (onload cw st) = resultImage st /\
  referenceImage (onload cw st) = referenceImage st /\
  layer_matches_stack (onload cw st) /\
  exists img imageEl d',
    image st = Some img /\ decode P (toDataUrl img) = Some imageEl /\
    dom (onload cw st) = Some d' /\
    bitmap (sourceDrawingCanvas d') = blank (width imageEl) (height imageEl).
Proof.
  intros Hdraw.
  pose proof Hdraw as Hguard. unfold drawImageOnCanvas in Hguard.
  apply drawImageOnCanvas_inv in Hdraw as (img & imageEl & Hi & Hdec & ->).
  rewrite Hi in Hguard. destruct (dom st) as [d|] eqn:Hd; [|discriminate].
  clear Hguard.
  assert (Hb : bitmap (clearRect (width imageEl) (height imageEl)
                         (fresh (width imageEl) (height imageEl)))
               = blank (width imageEl) (height imageEl)).
  { apply (@clearRect_blank (fresh (width imageEl) (height imageEl))).
    apply blank_well_formed. }
  unfold imageEl_onload. rewrite Hd. cbn zeta.
  match goal with
  | |- context [clearMask ?s] =>
      destruct (clearMask_fields s) as (H1 & H2 & H3 & H4 & H5)
  end.
  rewrite H1, H2, H3, H4, H5.
  repeat (split; [reflexivity|]).
  split.
  - unfold layer_matches_stack, clearMask, on_drawing.
    cbn [dom set_dom setDrawingHistory drawingHistory last with_drawing
         sourceDrawingCanvas]. cbn zeta.
    rewrite resize_fresh. exact Hb.
  - exists img, imageEl. eexists. split; [exact Hi|]. split; [exact Hdec|].
    unfold clearMask, on_drawing.
    cbn [dom set_dom setDrawingHistory with_drawing sourceDrawingCanvas].
    split; [reflexivity|].
    cbn [sourceDrawingCanvas]. rewrite resize_fresh. exact Hb.
Qed.

Lemma reload_wipes_mask_witness :
  drawingHistory (imageEl_onload Bench.picture 300 Bench.painted) = [] /\
  drawingHistory Bench.painted <> [].
Proof.
  split.
  - apply (@reload_wipes_mask Bench.platform Bench.painted
             (imageEl_onload Bench.picture) 300).
    reflexivity.
  - vm_compute. discriminate.
Defined.

(** X23.  When a request goes out.  [handleGenerate] sends a request
    exactly when there is a source picture, a non-empty prompt, a
    mounted drawing canvas and a 2D context for the mask canvas; the
    request then carries the session's source, prompt and reference and
    an [image/png] mask, and the session itself only turns loading on
    and clears the result display. *)
Theorem handleGenerate_sends_iff (P : Platform) (st : ImageEditor) :
  ((exists st' r, handleGenerate P st = (st', Sent r)) <->
   image st <> None /\ prompt st <> [] /\
   exists d,
     dom st = Some d /\
     getContext P (canvas_width (sourceDrawingCanvas d))
       (canvas_height (sourceDrawingCanvas d)) = true) /\
  (forall st' r,
     handleGenerate P st = (st', Sent r) ->
     st' = setResultImage None (setIsLoading true st) /\
     image st = Some (req_image r) /\
     req_prompt r = prompt st /\
     req_reference r = referenceImage st /\
     mimeType (req_mask r) = js "image/png" /\
     generateMaskImage P st = Some (req_mask r)).
Proof.
  split.
  - split.
    + intros (st' & r & Hs).
      apply handleGenerate_sent in Hs as (_ & Hi & _ & Hp & _ & Hm).
      split; [congruence|]. split; [exact Hp|].
      apply generateMaskImage_inv in Hm as (d & Hd & Hc & _). eauto.
    + intros (Hi & Hp & d & Hd & Hc). unfold handleGenerate.
      destruct (image st) as [img|]; [|congruence].
      apply falsy_cons in Hp. rewrite Hp.
      rewrite (generateMaskImage_Some P st Hd Hc). eauto.
  - intros st' r Hs.
    apply handleGenerate_sent in Hs as (-> & Hi & Hp & _ & Hr & Hm).
    repeat (split; [assumption || reflexivity|]).
    split; [|exact Hm].
    apply generateMaskImage_inv in Hm as (d & _ & _ & ->). reflexivity.
Qed.

Lemma handleGenerate_sends_iff_witness :
  exists st' r, handleGenerate Bench.platform Bench.ready = (st', Sent r).
Proof.
  apply (proj2 (proj1 (handleGenerate_sends_iff Bench.platform Bench.ready))).
  split; [discriminate|]. split; [discriminate|].
  eexists. split; reflexivity.
Defined.

(** ** What the service hands back *)

Lemma split_nonempty (sep : char16) (s : JsString) : split sep s <> [].
Proof.
  induction s as [|c s IH]; cbn [split]; [discriminate|].
  destruct (c =? sep)%N; [discriminate|].
  destruct (split sep s); [discriminate|discriminate].
Qed.

Lemma split_second (sep : char16) (s : JsString) :
  In sep s -> exists seg, nth_error (split sep s) 1 = Some seg.
Proof.
  induction s as [|c s IH]; intros Hin; [destruct Hin|].
  cbn [split]. destruct (N.eqb_spec c sep) as [->|Hc].
  - pose proof (split_nonempty sep s) as Hne.
    destruct (split sep s) as [|seg segs]; [congruence|].
    exists seg. reflexivity.
  - destruct Hin as [->|Hin]; [congruence|].
    destruct (IH Hin) as [seg Hseg].
    destruct (split sep s) as [|seg0 segs]; [discriminate|].
    exists seg. exact Hseg.
Qed.

Lemma first_inline_inv (parts : list Part) (u : JsString) :
  first_inline parts = Some u ->
  exists pre p post i,
    parts = pre ++ p :: post /\
    Forall (fun q => inlineData q = None) pre /\
    inlineData p = Some i /\
    u = toDataUrl {| base64 := InlineData.data i; mimeType := InlineData.mimeType i |}.
Proof.
  induction parts as [|p parts IH]; [discriminate|].
  cbn [first_inline]. destruct (inlineData p) as [i|] eqn:Hi.
  - intros H. exists [], p, parts, i.
    split; [reflexivity|]. split; [constructor|]. split; [exact Hi|].
    apply (f_equal (fun o => match o with Some x => x | None => [] end)) in H.
    symmetry. exact H.
  - intros H. destruct (IH H) as (pre & q & post & i & -> & Hpre & Hq & Hu).
    exists (p :: pre), q, post, i.
    split; [reflexivity|]. split; [constructor; assumption|]. auto.
Qed.

Lemma toDataUrl_comma (img : SourceImage) : In comma (toDataUrl img).
Proof.
  unfold toDataUrl. apply in_or_app. right. apply in_or_app. right.
  apply in_or_app. left. vm_compute.
  repeat (try (left; reflexivity); right).
Qed.

Lemma toDataUrl_truthy (img : SourceImage) :
  truthy_result (Some (toDataUrl img)) = Some (toDataUrl img).
Proof. reflexivity. Qed.

(** X24.  Whatever [extractBase64Image] returns as a string is the data
    URL of the first inline part of the first candidate, built from
    that part's content type and data: it is never the empty string,
    so the [if (result)] tests of its callers fail on [null] only, and
    it always holds a comma, so [split(',')[1]] in the tour is defined;
    when neither the content type nor the payload has a comma, that
    piece is exactly the payload. *)
Theorem extractBase64Image_data_url (response : list (list Part)) (u : JsString) :
  extractBase64Image response = Some (Some u) ->
  exists pre p post rest i,
    response = (pre ++ p :: post) :: rest /\
    Forall (fun q => inlineData q = None) pre /\
    inlineData p = Some i /\
    u = toDataUrl {| base64 := InlineData.data i; mimeType := InlineData.mimeType i |} /\
    truthy_result (Some u) = Some u /\
    (exists seg, nth_error (split comma u) 1 = Some seg) /\
    (~ In comma (InlineData.mimeType i) -> ~ In comma (InlineData.data i) ->
     nth_error (split comma u) 1 = Some (InlineData.data i)).
Proof.
  destruct response as [|parts rest]; [discriminate|].
  cbn [extractBase64Image]. intros H.
  assert (Hf : first_inline parts = Some u) by congruence.
  destruct (first_inline_inv parts Hf) as (pre & p & post & i & -> & Hpre & Hp & Hu).
  exists pre, p, post, rest, i.
  split; [reflexivity|]. split; [exact Hpre|]. split; [exact Hp|].
  split; [exact Hu|]. rewrite Hu. split; [apply toDataUrl_truthy|]. split.
  - apply split_second. apply toDataUrl_comma.
  - intros Hm Hd.
    rewrite (@split_toDataUrl
               {| base64 := InlineData.data i; mimeType := InlineData.mimeType i |}
               Hm Hd).
    reflexivity.
Qed.

(** An answer whose first candidate holds a text part, a picture and a
    second picture: the URL is that of the first picture. *)
Lemma extractBase64Image_data_url_witness :
  exists pre p post rest i,
    [[text_part (js "done");
      inline_part {| base64 := js "QUJD"; mimeType := js "image/png" |};
      inline_part {| base64 := js "REVG"; mimeType := js "image/jpeg" |}]]
    = (pre ++ p :: post) :: rest /\
    Forall (fun q => inlineData q = None) pre /\
    inlineData p = Some i /\
    js "data:image/png;base64,QUJD"
    = toDataUrl {| base64 := InlineData.data i; mimeType := InlineData.mimeType i |} /\
    truthy_result (Some (js "data:image/png;base64,QUJD"))
    = Some (js "data:image/png;base64,QUJD") /\
    (exists seg, nth_error (split comma (js "data:image/png;base64,QUJD")) 1 = Some seg) /\
    (~ In comma (InlineData.mimeType i) -> ~ In comma (InlineData.data i) ->
     nth_error (split comma (js "data:image/png;base64,QUJD")) 1
     = Some (InlineData.data i)).
Proof.
  apply (@extractBase64Image_data_url
           [[text_part (js "done");
             inline_part {| base64 := js "QUJD"; mimeType := js "image/png" |};
             inline_part {| base64 := js "REVG"; mimeType := js "image/jpeg" |}]]).
  reflexivity.
Defined.
